(** * waves-auto-lessor: the leasing pipeline of [lessor.go]

    A shallow embedding of [run] and its helpers.  Go's fixed-width
    integers are integers of [Z] with their wrap-around written out; the
    node's REST API, the key and address codecs and the clock are
    oracles of a [World]; [run] is a program of a small monad that
    threads the log of everything the process did. *)

From Stdlib Require Import ZArith List String Bool Lia Permutation.
Import ListNotations.
Open Scope string_scope.
Open Scope Z_scope.

(** ** Machine integers *)

Module Int.

(** Conversion to [uint64]: the value modulo 2^64. *)
Definition uint64 (z : Z) : Z := z mod 2 ^ 64.

(** Conversion to [int64]: the two's-complement reading of the low 64 bits. *)
Definition int64 (z : Z) : Z := (z + 2 ^ 63) mod 2 ^ 64 - 2 ^ 63.

Definition is_uint64 (z : Z) : Prop := 0 <= z < 2 ^ 64.
Definition is_int64 (z : Z) : Prop := - 2 ^ 63 <= z < 2 ^ 63.

End Int.

(** ** Constants of [lessor.go] *)

Definition waves : Z := 100000000.
Definition standardFee : Z := 100000.

(** ** The amount policy (the blocks at lines 324-338 and 355-360, repeated
    at 408-422 and 439-444) *)

(** Lines 324-331: [if irreducibleBalance > 0 { b := int64(balance) -
    irreducibleBalance; if b > 0 { balance = uint64(b) } else { balance = 0 } }]. *)
Definition reserveIrreducible (irreducibleBalance balance : Z) : Z :=
  if 0 <? irreducibleBalance then
    let b := Int.int64 (Int.int64 balance - irreducibleBalance) in
    if 0 <? b then Int.uint64 b else 0
  else balance.

(** Lines 336-338: [if balance > waves && testRun { balance = waves }]. *)
Definition limitTestRun (testRun : bool) (balance : Z) : Z :=
  if (waves <? balance) && testRun then waves else balance.

(** Lines 324-338 as a whole: [None] is the exit
    "Not enough balance on ... account" of line 332. *)
Definition availableBalance (irreducibleBalance : Z) (testRun : bool) (balance : Z)
  : option Z :=
  let balance := reserveIrreducible irreducibleBalance balance in
  if balance <=? standardFee then None
  else Some (limitTestRun testRun balance).

(** Line 355: [fee := standardFee + extraFee], on [uint64]. *)
Definition feeOf (extraFee : Z) : Z := Int.uint64 (standardFee + extraFee).

(** Line 356: [amount := balance - fee], on [uint64]. *)
Definition amountOf (balance fee : Z) : Z := Int.uint64 (balance - fee).

(** Lines 355-360: [None] is the exit "Negative of zero amount to ..." of
    line 357, otherwise the amount and the fee of the transaction. *)
Definition amountAndFee (balance extraFee : Z) : option (Z * Z) :=
  let fee := feeOf extraFee in
  let amount := amountOf balance fee in
  if amount <=? 0 then None else Some (amount, fee).

(** The two exits of the amount policy; both return [errFailure] and differ
    by the line they log. *)
Inductive AmountError : Type :=
| NotEnoughBalance
| NonPositiveAmount.

(** One pass of the policy, the extra fee being the answer of the node to the
    query made between the two blocks (line 342). *)
Definition spendableAmount (irreducibleBalance : Z) (testRun : bool)
    (rawBalance extraFee : Z) : AmountError + Z * Z :=
  match availableBalance irreducibleBalance testRun rawBalance with
  | None => inl NotEnoughBalance
  | Some balance =>
      match amountAndFee balance extraFee with
      | None => inl NonPositiveAmount
      | Some af => inr af
      end
  end.

(** ** Values of the libraries the program is linked with *)

(** Go's [error] values the program tells apart: its three sentinels,
    anything for which [errors.Is(err, context.Canceled)] holds, and any
    other error. *)
Inductive error : Type :=
| errInvalidParameters
| errUserTermination
| errFailure
| contextCanceled
| otherError (text : string).

(** A Go result pair [(value, err)] of which only one side is used. *)
Inductive result (A : Type) : Type :=
| Ok (a : A)
| Err (e : error).
Arguments Ok {A} a.
Arguments Err {A} e.

(** [errors.Is(err, context.Canceled)]. *)
Definition isCanceled (e : error) : bool :=
  match e with
  | contextCanceled => true
  | _ => false
  end.

(** Fixed-size byte arrays of [crypto] and [proto], as byte strings. *)
Definition SecretKey : Type := string.
Definition PublicKey : Type := string.
Definition WavesAddress : Type := string.
Definition Digest : Type := string.

(** The fields of [url.URL] the program reads or writes. *)
Record URL : Type := {
  Scheme : string;
  Host : string
}.

Record Client : Type := {
  BaseUrl : string
}.

Record feature : Type := {
  ID : Z;
  Description : string;
  BlockchainStatus : string;
  NodeStatus : string;
  ActivationHeight : Z
}.

Record account : Type := {
  sk : SecretKey;
  pk : PublicKey;
  addr : WavesAddress
}.

(** [proto.NewUnsignedTransferWithProofs(v, senderPK, na, na, timestamp,
    amount, fee, recipient, nil)]: both assets are WAVES and the attachment
    is empty, so they carry no field here. *)
Record Transfer : Type := {
  tVersion : Z;
  tSenderPK : PublicKey;
  tTimestamp : Z;
  tAmount : Z;
  tFee : Z;
  tRecipient : WavesAddress
}.

(** [proto.NewUnsignedLeaseWithProofs(v, senderPK, recipient, amount, fee,
    timestamp)]. *)
Record Lease : Type := {
  lVersion : Z;
  lSenderPK : PublicKey;
  lRecipient : WavesAddress;
  lAmount : Z;
  lFee : Z;
  lTimestamp : Z
}.

Inductive Transaction : Type :=
| TransferTx (t : Transfer)
| LeaseTx (l : Lease).

Definition txVersion (tx : Transaction) : Z :=
  match tx with
  | TransferTx t => tVersion t
  | LeaseTx l => lVersion l
  end.

Definition isLease (tx : Transaction) : bool :=
  match tx with
  | TransferTx _ => false
  | LeaseTx _ => true
  end.

(** What [cl.Transactions.Info] hands back to [track]: the error and the
    response pointer, [None] for a nil pointer, otherwise the status code. *)
Record InfoReply : Type := {
  infoErr : option error;
  infoStatus : option Z
}.

(** The command line after [flag.Parse]. *)
Record Flags : Type := {
  nodeURL : string;
  generatorSK : string;
  lessorSK : string;
  lessorPK : string;
  leasingAddress : string;
  irreducibleBalance : Z;
  leasingThreshold : Z;
  transferOnly : bool;
  recipientAddress : string;
  dryRun : bool;
  testRun : bool;
  showHelp : bool;
  showVersion : bool
}.

(** ** The world outside the program

    The codecs and constructors of the libraries are functions; the node
    and the clock answer by the number of requests the process has already
    sent, so that two requests of one kind may be answered differently. *)
Record World : Type := {
  urlParse : string -> result URL;
  urlString : URL -> string;
  NewSecretKeyFromBase58 : string -> result SecretKey;
  NewPublicKeyFromBase58 : string -> result PublicKey;
  NewAddressFromString : string -> result WavesAddress;
  GeneratePublicKey : SecretKey -> PublicKey;
  NewAddressFromPublicKey : Z -> PublicKey -> result WavesAddress;
  NewClient : string -> result Client;
  NewRequest : string -> string -> option error;
  Sign : Z -> SecretKey -> Transaction -> result Digest;
  Marshal : Transaction -> result string;
  UnixNano : nat -> Z;
  BlocksHeight : nat -> result Z;
  BlocksLast : nat -> result WavesAddress;
  Do : nat -> string -> result (list feature);
  AddressesBalanceDetails : nat -> WavesAddress -> result Z;
  AddressesScriptInfo : nat -> WavesAddress -> result Z;
  TransactionsBroadcast : nat -> Transaction -> option error;
  TransactionsInfo : nat -> Digest -> InfoReply
}.

(** ** The log of a run *)

Inductive Event : Type :=
| Log (format : string)
| Usage
| Stdout (format : string)
| Height (reply : result Z)
| LastBlock (reply : result WavesAddress)
| ActivationStatus (reply : result (list feature))
| BalanceDetails (a : WavesAddress) (reply : result Z)
| ScriptInfo (a : WavesAddress) (reply : result Z)
| Signed (tx : Transaction) (key : SecretKey) (reply : result Digest)
| Rendered (tx : Transaction) (reply : result string)
| Broadcast (tx : Transaction) (reply : option error)
| Info (id : Digest) (reply : InfoReply)
| Sleep.

Record State : Type := {
  trace : list Event;
  calls : nat
}.

Definition start : State := {| trace := []; calls := 0 |}.

(** How a piece of [run] ends: it goes on with a value, [run] returns, the
    process panics, or the model has no fuel left for the loop of [track]. *)
Inductive Result (A : Type) : Type :=
| Next (a : A)
| Return (err : option error)
| Panic
| OutOfFuel.
Arguments Next {A} a.
Arguments Return {A} err.
Arguments Panic {A}.
Arguments OutOfFuel {A}.

Definition M (A : Type) : Type := State -> Result A * State.

Definition ret {A} (a : A) : M A := fun s => (Next a, s).

Definition bind {A B} (m : M A) (k : A -> M B) : M B := fun s =>
  match m s with
  | (Next a, s') => k a s'
  | (Return e, s') => (Return e, s')
  | (Panic, s') => (Panic, s')
  | (OutOfFuel, s') => (OutOfFuel, s')
  end.

Declare Scope run_scope.
Delimit Scope run_scope with run.
Notation "x <- m ;; k" := (bind m (fun x => k))
  (at level 100, m at next level, right associativity) : run_scope.
Notation "m ;; k" := (bind m (fun _ => k))
  (at level 100, right associativity) : run_scope.
Open Scope run_scope.

(** [return err] of [run]. *)
Definition exit {A} (err : option error) : M A := fun s => (Return err, s).

Definition panic {A} : M A := fun s => (Panic, s).

Definition outOfFuel {A} : M A := fun s => (OutOfFuel, s).

Definition emit (e : Event) : M unit := fun s =>
  (Next tt, {| trace := trace s ++ [e]; calls := calls s |}).

(** [log.Print], [log.Println] and [log.Printf]: the format is recorded. *)
Definition log (format : string) : M unit := emit (Log format).

(** A request to the node: answered by the number of earlier requests. *)
Definition request {A} (oracle : nat -> A) (event : A -> Event) : M A := fun s =>
  let reply := oracle (calls s) in
  (Next reply, {| trace := trace s ++ [event reply]; calls := S (calls s) |}).

(** A call into a library. *)
Definition lib {A} (reply : A) (event : A -> Event) : M A :=
  emit (event reply) ;; ret reply.

(** ** Helpers of [lessor.go] *)

Definition defaultScheme : string := "http".

(** [strings.Contains]. *)
Definition Contains (s substr : string) : bool :=
  match index 0 substr s with
  | Some _ => true
  | None => false
  end.

Definition withScheme (u : URL) (scheme : string) : URL :=
  {| Scheme := scheme; Host := Host u |}.

(** [normalizeURL]: the string and the error of the Go pair. *)
Definition normalizeURL (w : World) (s : string) : string * option error :=
  let s := if negb (Contains s "//") then "//" ++ s else s in
  match urlParse w s with
  | Err e => ("", Some e)
  | Ok u =>
      let u := if String.eqb (Scheme u) "" then withScheme u defaultScheme else u in
      if negb (String.eqb (Scheme u) "http") && negb (String.eqb (Scheme u) "https")
      then ("", Some (otherError "unsupported URL scheme '%s'"))
      else (urlString w u, None)
  end.

(** [nodeClient]. *)
Definition nodeClient (w : World) (s : string) : M (result Client) :=
  match (if Contains s "//" then urlParse w s else urlParse w ("//" ++ s)) with
  | Err e => ret (Err e)
  | Ok u =>
      let u := if String.eqb (Scheme u) "" then withScheme u defaultScheme else u in
      if negb (String.eqb (Scheme u) "http") && negb (String.eqb (Scheme u) "https")
      then ret (Err (otherError "unsupported URL scheme '%s'"))
      else
        match NewClient w (urlString w u) with
        | Err e => ret (Err e)
        | Ok cl =>
            r <- request (BlocksHeight w) Height ;;
            match r with
            | Err e => ret (Err e)
            | Ok _ => ret (Ok cl)
            end
        end
  end.

(** The byte at index 1 of an address; an address has 26 bytes, so the index
    is always in range in the program. *)
Definition schemeByte (a : WavesAddress) : Z :=
  match get 1 a with
  | Some c => Z.of_N (Ascii.N_of_ascii c)
  | None => 0
  end.

(** [getScheme]. *)
Definition getScheme (w : World) : M (result Z) :=
  r <- request (BlocksLast w) LastBlock ;;
  match r with
  | Err e => ret (Err e)
  | Ok generator => ret (Ok (schemeByte generator))
  end.

(** The loop of [isProtobufActivated] (lines 594-599). *)
Fixpoint protobufFeature (features : list feature) : bool :=
  match features with
  | [] => false
  | f :: rest =>
      if (ID f =? 15) && String.eqb (BlockchainStatus f) "ACTIVATED"
         && (String.eqb (NodeStatus f) "IMPLEMENTED" || String.eqb (NodeStatus f) "VOTED")
      then true
      else protobufFeature rest
  end.

(** [isProtobufActivated]. *)
Definition isProtobufActivated (w : World) (cl : Client) : M (result bool) :=
  let url := BaseUrl cl ++ "/activation/status" in
  match NewRequest w "GET" url with
  | Some e => ret (Err e)
  | None =>
      r <- request (fun n => Do w n url) ActivationStatus ;;
      match r with
      | Err e => ret (Err e)
      | Ok features => ret (Ok (protobufFeature features))
      end
  end.

(** Lines 268-271. *)
Definition versionFor (protobuf : bool) : Z := if protobuf then 3 else 2.

(** [accountFromSK]. *)
Definition accountFromSK (w : World) (k : SecretKey) (scheme : Z) : result account :=
  let p := GeneratePublicKey w k in
  match NewAddressFromPublicKey w scheme p with
  | Err e => Err e
  | Ok a => Ok {| sk := k; pk := p; addr := a |}
  end.

(** [accountFromSKAndDifferentPK]. *)
Definition accountFromSKAndDifferentPK (w : World) (k : SecretKey) (p : PublicKey)
    (scheme : Z) : result account :=
  match NewAddressFromPublicKey w scheme p with
  | Err e => Err e
  | Ok a => Ok {| sk := k; pk := p; addr := a |}
  end.

(** [accountFromAddress]: the keys keep their zero value. *)
Definition accountFromAddress (a : WavesAddress) : account :=
  {| sk := ""; pk := ""; addr := a |}.

(** The zero value [account{}]. *)
Definition noAccount : account := {| sk := ""; pk := ""; addr := "" |}.

(** [a.recipient()]. *)
Definition recipient (a : account) : WavesAddress := addr a.

(** [timestamp]: [uint64(time.Now().UnixNano()) / 1000000]. *)
Definition timestamp (w : World) : M Z := fun s =>
  (Next (Int.uint64 (UnixNano w (calls s)) / 1000000), s).

(** [getAvailableWavesBalance]: the [Available] field of the balance
    details. *)
Definition getAvailableWavesBalance (w : World) (a : WavesAddress) : M (result Z) :=
  request (fun n => AddressesBalanceDetails w n a) (BalanceDetails a).

(** [getExtraFee]: the [ExtraFee] field of the script info. *)
Definition getExtraFee (w : World) (a : WavesAddress) : M (result Z) :=
  request (fun n => AddressesScriptInfo w n a) (ScriptInfo a).

(** [broadcast]. *)
Definition broadcast (w : World) (tx : Transaction) : M (option error) :=
  request (fun n => TransactionsBroadcast w n tx) (Broadcast tx).

(** [errors.Is(err, context.Canceled)] on an error that may be nil. *)
Definition canceled (err : option error) : bool :=
  match err with
  | Some e => isCanceled e
  | None => false
  end.

(** The loop of [track] (lines 494-503); [fuel] bounds the polls the model
    follows.  [rsp.StatusCode] on a nil [rsp] is a nil-pointer panic. *)
Fixpoint poll (w : World) (fuel : nat) (id : Digest) : M (option error) :=
  match fuel with
  | O => outOfFuel
  | S fuel' =>
      r <- request (fun n => TransactionsInfo w n id) (Info id) ;;
      if canceled (infoErr r) then ret (infoErr r)
      else
        match infoStatus r with
        | None => panic
        | Some code =>
            if code =? 200 then ret None
            else emit Sleep ;; poll w fuel' id
        end
  end.

(** [track]. *)
Definition track (w : World) (fuel : nat) (id : Digest) : M (option error) :=
  log "[INFO] Waiting for transaction '%s' on blockchain..." ;;
  poll w fuel id.

(** ** [run] *)

(** What [run] keeps of the flags once they are decoded (lines 167-221). *)
Record Params : Type := {
  gSK : SecretKey;
  lSK : SecretKey;
  differentLessorPK : option PublicKey;
  leasingAddr : option WavesAddress;
  transferRecipientAddress : WavesAddress
}.

Record Accounts : Type := {
  generator : account;
  transferRecipient : account;
  lessor : account;
  leasingRecipient : account
}.

Record Chain : Type := {
  scheme : Z;
  txVer : Z
}.

(** The two halves of the pipeline share their code up to the words of the
    log lines. *)
Inductive Phase : Type :=
| TransferPhase
| LeasePhase.

Definition text {A} (ph : Phase) (transfer lease : A) : A :=
  match ph with
  | TransferPhase => transfer
  | LeasePhase => lease
  end.

Definition when (c : bool) (m : M unit) : M unit :=
  if c then m else ret tt.

(** Lines 178-221: the keys and addresses of the mode in use. *)
Definition decodeKeys (w : World) (f : Flags) (g : SecretKey) : M Params :=
  if transferOnly f then
    log "[INFO] Transfer only mode activated" ;;
    if String.eqb (recipientAddress f) "" then
      log "[ERROR] Empty recipient address. Please, provide the correct recipient address." ;;
      exit (Some errInvalidParameters)
    else
      match NewAddressFromString w (recipientAddress f) with
      | Err _ =>
          log "[ERROR] Invalid transfer recipient address '%s': %v" ;;
          exit (Some errInvalidParameters)
      | Ok a =>
          ret {| gSK := g; lSK := ""; differentLessorPK := None;
                 leasingAddr := None; transferRecipientAddress := a |}
      end
  else
    if String.eqb (lessorSK f) "" then
      log "[ERROR] Empty lessor private key. Please, provide correct lessor private key." ;;
      exit (Some errInvalidParameters)
    else
      match NewSecretKeyFromBase58 w (lessorSK f) with
      | Err _ =>
          log "[ERROR] Invalid lessor private key '%s': %v" ;;
          exit (Some errInvalidParameters)
      | Ok l =>
          p <- (if String.eqb (lessorPK f) "" then
                  log "[INFO] No different lessor public key is given" ;;
                  ret None
                else
                  match NewPublicKeyFromBase58 w (lessorPK f) with
                  | Err _ =>
                      log "[ERROR] Failed to parse additional lessor public key'%s': %v" ;;
                      exit (Some errFailure)
                  | Ok p => ret (Some p)
                  end) ;;
          a <- (if String.eqb (leasingAddress f) "" then
                  log "[INFO] No different leasing address is given" ;;
                  ret None
                else
                  match NewAddressFromString w (leasingAddress f) with
                  | Err _ =>
                      log "[ERROR] Invalid leasing address '%s': %v" ;;
                      exit (Some errFailure)
                  | Ok a => ret (Some a)
                  end) ;;
          ret {| gSK := g; lSK := l; differentLessorPK := p;
                 leasingAddr := a; transferRecipientAddress := "" |}
      end.

(** Lines 144-234: the flags are checked and decoded; the result is the
    node's URL as [run] will use it, and the keys. *)
Definition checkFlags (w : World) (f : Flags) : M (string * Params) :=
  when (showHelp f) (emit Usage ;; exit None) ;;
  when (showVersion f) (emit (Stdout "Waves Automatic Lessor %s\n") ;; exit None) ;;
  when (String.eqb (nodeURL f) "")
    (log "[ERROR] Empty node's URL. Please, provide correct URL to node." ;;
     exit (Some errInvalidParameters)) ;;
  let (u, err) := normalizeURL w (nodeURL f) in
  when (match err with Some _ => true | None => false end)
    (log "[ERROR] Invalid node's URL '%s': %v") ;;
  when (String.eqb (generatorSK f) "")
    (log "[ERROR] Empty generating account private key. Please, provide the correct private key." ;;
     exit (Some errInvalidParameters)) ;;
  match NewSecretKeyFromBase58 w (generatorSK f) with
  | Err _ =>
      log "[ERROR] Invalid generating account private key '%s': %v" ;;
      exit (Some errInvalidParameters)
  | Ok g =>
      p <- decodeKeys w f g ;;
      when (irreducibleBalance f <? 0)
        (log "[ERROR] Invalid irreducible balance value '%d'" ;;
         exit (Some errInvalidParameters)) ;;
      when (0 <? irreducibleBalance f)
        (log "[INFO] Accounts irreducible balance set to %s") ;;
      when (testRun f)
        (log "[INFO] TEST-RUN: Available balance will be limited to %s") ;;
      when (dryRun f)
        (log "[INFO] DRY-RUN: No actual transactions will be created") ;;
      ret (u, p)
  end.

(** A failed request: [errUserTermination] on cancellation, otherwise the
    line is logged and [errFailure] returned. *)
Definition failed {A} (e : error) (line : string) : M A :=
  if isCanceled e then exit (Some errUserTermination)
  else log line ;; exit (Some errFailure).

(** Step 1 (lines 239-248). *)
Definition connect (w : World) (url : string) : M Client :=
  r <- nodeClient w url ;;
  match r with
  | Err e => failed e "[ERROR] Failed to connect to node at '%s': %v"
  | Ok cl => log "[INFO] Successfully connected to '%s'" ;; ret cl
  end.

(** Step 2 (lines 250-272). *)
Definition chainFacts (w : World) (cl : Client) : M Chain :=
  r <- getScheme w ;;
  match r with
  | Err e => failed e "[ERROR] Failed to aquire blockchain scheme: %v"
  | Ok sch =>
      log "[INFO] Blockchain scheme: %s" ;;
      r <- isProtobufActivated w cl ;;
      match r with
      | Err e => failed e "[ERROR] Failed to check Protobuf activation status: %v"
      | Ok protobuf =>
          let v := versionFor protobuf in
          log "[INFO] Version of transactions to produce: %d" ;;
          ret {| scheme := sch; txVer := v |}
      end
  end.

(** Step 3 (lines 274-312). *)
Definition resolveAccounts (w : World) (f : Flags) (p : Params) (sch : Z) : M Accounts :=
  match accountFromSK w (gSK p) sch with
  | Err _ =>
      log "[ERROR] Failed to create generator's account: %v" ;;
      exit (Some errFailure)
  | Ok gen =>
      log "[INFO] Generating address: %s" ;;
      if transferOnly f then
        let r := accountFromAddress (transferRecipientAddress p) in
        log "[INFO] Transfer recipient address: %s" ;;
        ret {| generator := gen; transferRecipient := r;
               lessor := noAccount; leasingRecipient := noAccount |}
      else
        match (match differentLessorPK p with
               | Some k => accountFromSKAndDifferentPK w (lSK p) k sch
               | None => accountFromSK w (lSK p) sch
               end) with
        | Err _ =>
            log "[ERROR] Failed to create lessor account: %v" ;;
            exit (Some errFailure)
        | Ok les =>
            let r := match leasingAddr p with
                     | Some a => accountFromAddress a
                     | None => gen
                     end in
            log "[INFO] Lessor address: %s" ;;
            log "[INFO] Lessor public key: %s" ;;
            log "[INFO] Leasing to address: %s" ;;
            ret {| generator := gen; transferRecipient := les;
                   lessor := les; leasingRecipient := r |}
        end
  end.

(** Steps 4-5 up to line 360 and steps 6-7 up to line 444: the balance of
    the sender, the reservation, the extra fee, the amount and the fee. *)
Definition amountPhase (w : World) (f : Flags) (ph : Phase) (who : account) : M (Z * Z) :=
  r <- getAvailableWavesBalance w (addr who) ;;
  match r with
  | Err e =>
      failed e (text ph "[ERROR] Failed to get generator WAVES balance: %v"
                        "[ERROR] Failed to get lessor account's WAVES balance: %v")
  | Ok balance =>
      log (text ph "[INFO] Balance of generation account '%s': %s"
                   "[INFO] Balance of lessor account '%s': %s") ;;
      match availableBalance (irreducibleBalance f) (testRun f) balance with
      | None =>
          log (text ph "[ERROR] Not enough balance on generator's account"
                       "[ERROR] Not enough balance on lessor's account") ;;
          exit (Some errFailure)
      | Some balance =>
          log (text ph "[INFO] Balance available for transfer: %s"
                       "[INFO] Balance available for leasing: %s") ;;
          r <- getExtraFee w (addr who) ;;
          match r with
          | Err e => failed e "[ERROR] Failed to check extra fee on account '%s': %v"
          | Ok extraFee =>
              log (if negb (extraFee =? 0)
                   then text ph "[INFO] Extra fee on transfer: %s" "[INFO] Extra fee on lease: %s"
                   else text ph "[INFO] No extra fee on transfer" "[INFO] No extra fee on lease") ;;
              match amountAndFee balance extraFee with
              | None =>
                  log (text ph "[ERROR] Negative of zero amount to transfer"
                               "[ERROR] Negative of zero amount to lease") ;;
                  exit (Some errFailure)
              | Some af => ret af
              end
          end
      end
  end.

(** Lines 362-392 and 452-482: the transaction is signed, then rendered in
    a dry run, or else broadcast and tracked. *)
Definition deliver (w : World) (f : Flags) (fuel : nat) (ph : Phase) (sch : Z)
    (key : SecretKey) (tx : Transaction) : M unit :=
  r <- lib (Sign w sch key tx) (Signed tx key) ;;
  match r with
  | Err _ =>
      log (text ph "[ERROR] Failed to sign transfer transaction: %v"
                   "[ERROR] Failed to sign lease transaction: %v") ;;
      exit (Some errFailure)
  | Ok id =>
      if dryRun f then
        r <- lib (Marshal w tx) (Rendered tx) ;;
        match r with
        | Err _ =>
            log "[ERROR] Failed to make transaction json: %v" ;;
            exit (Some errFailure)
        | Ok _ =>
            log (text ph "[INFO] Transfer transaction:\n%s" "[INFO] Lease transaction:\n%s")
        end
      else
        log (text ph "[INFO] Transfer transaction ID: %s" "[INFO] Lease transaction ID: %s") ;;
        err <- broadcast w tx ;;
        match err with
        | Some e =>
            failed e (text ph "[ERROR] Failed to broadcast transfer transaction: %v"
                              "[ERROR] Failed to broadcast lease transaction: %v")
        | None =>
            err <- track w fuel id ;;
            match err with
            | Some e =>
                failed e (text ph "[ERROR] Failed to track transfer transaction: %v"
                                  "[ERROR] Failed to track lease transaction: %v")
            | None => ret tt
            end
        end
  end.

(** Steps 4 and 5 (lines 314-392). *)
Definition transferStep (w : World) (f : Flags) (fuel : nat) (c : Chain) (a : Accounts)
  : M unit :=
  af <- amountPhase w f TransferPhase (generator a) ;;
  let (amount, fee) := af in
  t <- timestamp w ;;
  let transfer := {| tVersion := txVer c; tSenderPK := pk (generator a);
                     tTimestamp := t; tAmount := amount; tFee := fee;
                     tRecipient := recipient (transferRecipient a) |} in
  deliver w f fuel TransferPhase (scheme c) (sk (generator a)) (TransferTx transfer).

(** Steps 6 and 7 (lines 398-484). *)
Definition leaseStep (w : World) (f : Flags) (fuel : nat) (c : Chain) (p : Params)
    (a : Accounts) : M unit :=
  af <- amountPhase w f LeasePhase (lessor a) ;;
  let (amount, fee) := af in
  when (0 <? leasingThreshold f)
    (when (amount <? Int.uint64 (leasingThreshold f))
       (log "[INFO] Leasing amount %d is less than threshold %d" ;;
        exit None)) ;;
  t <- timestamp w ;;
  let lease := {| lVersion := txVer c; lSenderPK := pk (lessor a);
                  lRecipient := recipient (leasingRecipient a);
                  lAmount := amount; lFee := fee; lTimestamp := t |} in
  deliver w f fuel LeasePhase (scheme c) (lSK p) (LeaseTx lease) ;;
  log "[INFO] OK" ;;
  exit None.

(** Lines 144-392: everything up to the end of the transfer. *)
Definition throughTransfer (w : World) (f : Flags) (fuel : nat)
  : M (Chain * Params * Accounts) :=
  up <- checkFlags w f ;;
  let (url, p) := up in
  cl <- connect w url ;;
  c <- chainFacts w cl ;;
  a <- resolveAccounts w f p (scheme c) ;;
  transferStep w f fuel c a ;;
  ret (c, p, a).

(** [run]. *)
Definition run (w : World) (f : Flags) (fuel : nat) : M unit :=
  cpa <- throughTransfer w f fuel ;;
  let '(c, p, a) := cpa in
  if transferOnly f then
    log "[INFO] OK" ;;
    exit None
  else
    leaseStep w f fuel c p a.

(** The status [main] exits with (lines 96-111); a nil error leaves [main]
    by its end, with status 0. *)
Definition exitStatus (err : option error) : Z :=
  match err with
  | None => 0
  | Some errInvalidParameters => 2
  | Some errUserTermination => 130
  | Some errFailure => 70
  | Some _ => 1
  end.

(** [main]: the status of the process, where [run] returns. *)
Definition main (w : World) (f : Flags) (fuel : nat) : option Z * list Event :=
  match run w f fuel start with
  | (Return err, s) =>
      (Some (exitStatus err),
       match err with
       | Some errInvalidParameters => (trace s ++ [Usage])%list
       | _ => trace s
       end)
  | (_, s) => (None, trace s)
  end.

(** ** A sample world

    A node of the main network (scheme byte 'W') that answers every request,
    reports a transaction as found on every odd-numbered request, and toy
    codecs: a key or an address decodes when it has none of the characters
    that Base58 leaves out. *)

Definition base58 (s : string) : bool :=
  negb (Contains s "0" || Contains s "O" || Contains s "I" || Contains s "l").

Definition decode (s : string) : result string :=
  if base58 s then Ok s else Err (otherError "invalid base58").

Definition sampleParse (s : string) : result URL :=
  match index 0 "://" s with
  | Some n => Ok {| Scheme := substring 0 n s;
                    Host := substring (n + 3) (String.length s - (n + 3)) s |}
  | None => Ok {| Scheme := ""; Host := substring 2 (String.length s - 2) s |}
  end.

Definition sampleInfo (n : nat) : InfoReply :=
  if Nat.even n
  then {| infoErr := Some (otherError "404 Not Found"); infoStatus := Some 404 |}
  else {| infoErr := None; infoStatus := Some 200 |}.

Definition sample (generatorBalance lessorBalance extraFee : Z) (features : list feature)
  : World :=
  {| urlParse := sampleParse;
     urlString := fun u => Scheme u ++ "://" ++ Host u;
     NewSecretKeyFromBase58 := decode;
     NewPublicKeyFromBase58 := decode;
     NewAddressFromString := decode;
     GeneratePublicKey := fun k => "pk-" ++ k;
     NewAddressFromPublicKey := fun _ p => Ok ("3P-" ++ p);
     NewClient := fun url => Ok {| BaseUrl := url |};
     NewRequest := fun _ _ => None;
     Sign := fun _ _ tx => Ok (if isLease tx then "lease-id" else "transfer-id");
     Marshal := fun _ => Ok "{}";
     UnixNano := fun n => 1700000000000000000 + Z.of_nat n;
     BlocksHeight := fun _ => Ok 4000000;
     BlocksLast := fun _ => Ok "1W-miner";
     Do := fun _ _ => Ok features;
     AddressesBalanceDetails := fun _ a =>
       Ok (if String.eqb a "3P-pk-GeneratorKey" then generatorBalance else lessorBalance);
     AddressesScriptInfo := fun _ _ => Ok extraFee;
     TransactionsBroadcast := fun _ _ => None;
     TransactionsInfo := fun n _ => sampleInfo n |}.

Definition feature15 : feature :=
  {| ID := 15; Description := "Ride V4, VRF, Protobuf, Failed transactions";
     BlockchainStatus := "ACTIVATED"; NodeStatus := "IMPLEMENTED";
     ActivationHeight := 2327000 |}.

(** Flags of a run against the sample world. *)
Definition flagsOf (irreducible threshold : Z) (only dry : bool) : Flags :=
  {| nodeURL := "http://localhost:6869";
     generatorSK := "GeneratorKey";
     lessorSK := if only then "" else "LessorKey";
     lessorPK := "";
     leasingAddress := "";
     irreducibleBalance := irreducible;
     leasingThreshold := threshold;
     transferOnly := only;
     recipientAddress := if only then "3P-recipient" else "";
     dryRun := dry;
     testRun := false;
     showHelp := false;
     showVersion := false |}.

(** Flags like [flagsOf 0 0 false false] but for the node's URL and the two
    overrides. *)
Definition flagsWith (url overridePK overrideAddress : string) : Flags :=
  {| nodeURL := url;
     generatorSK := "GeneratorKey";
     lessorSK := "LessorKey";
     lessorPK := overridePK;
     leasingAddress := overrideAddress;
     irreducibleBalance := 0;
     leasingThreshold := 0;
     transferOnly := false;
     recipientAddress := "";
     dryRun := false;
     testRun := false;
     showHelp := false;
     showVersion := false |}.

(** The world [w] with a node that refuses every connection. *)
Definition unreachable (w : World) : World :=
  {| urlParse := urlParse w;
     urlString := urlString w;
     NewSecretKeyFromBase58 := NewSecretKeyFromBase58 w;
     NewPublicKeyFromBase58 := NewPublicKeyFromBase58 w;
     NewAddressFromString := NewAddressFromString w;
     GeneratePublicKey := GeneratePublicKey w;
     NewAddressFromPublicKey := NewAddressFromPublicKey w;
     NewClient := NewClient w;
     NewRequest := NewRequest w;
     Sign := Sign w;
     Marshal := Marshal w;
     UnixNano := UnixNano w;
     BlocksHeight := fun _ => Err (otherError "connection refused");
     BlocksLast := fun _ => Err (otherError "connection refused");
     Do := fun _ _ => Err (otherError "connection refused");
     AddressesBalanceDetails := fun _ _ => Err (otherError "connection refused");
     AddressesScriptInfo := fun _ _ => Err (otherError "connection refused");
     TransactionsBroadcast := fun _ _ => Some (otherError "connection refused");
     TransactionsInfo := fun _ _ =>
       {| infoErr := Some (otherError "connection refused"); infoStatus := None |} |}.

(** The world [w] with an operator who interrupts the run when [n] requests
    have been sent: every later request is answered by the cancellation. *)
Definition interrupted (w : World) (n : nat) : World :=
  {| urlParse := urlParse w;
     urlString := urlString w;
     NewSecretKeyFromBase58 := NewSecretKeyFromBase58 w;
     NewPublicKeyFromBase58 := NewPublicKeyFromBase58 w;
     NewAddressFromString := NewAddressFromString w;
     GeneratePublicKey := GeneratePublicKey w;
     NewAddressFromPublicKey := NewAddressFromPublicKey w;
     NewClient := NewClient w;
     NewRequest := NewRequest w;
     Sign := Sign w;
     Marshal := Marshal w;
     UnixNano := UnixNano w;
     BlocksHeight := fun k =>
       if (n <=? k)%nat then Err contextCanceled else BlocksHeight w k;
     BlocksLast := fun k =>
       if (n <=? k)%nat then Err contextCanceled else BlocksLast w k;
     Do := fun k url =>
       if (n <=? k)%nat then Err contextCanceled else Do w k url;
     AddressesBalanceDetails := fun k a =>
       if (n <=? k)%nat then Err contextCanceled else AddressesBalanceDetails w k a;
     AddressesScriptInfo := fun k a =>
       if (n <=? k)%nat then Err contextCanceled else AddressesScriptInfo w k a;
     TransactionsBroadcast := fun k tx =>
       if (n <=? k)%nat then Some contextCanceled else TransactionsBroadcast w k tx;
     TransactionsInfo := fun k id =>
       if (n <=? k)%nat
       then {| infoErr := Some contextCanceled; infoStatus := None |}
       else TransactionsInfo w k id |}.

(** ** Vocabulary of the statements *)

(** Replies of the lookup endpoint as [track] tells them apart: the run was
    cancelled; the transaction is found; there is a response, and it is not
    200; there is no response at all. *)
Definition replyCanceled (r : InfoReply) : Prop :=
  canceled (infoErr r) = true.

Definition replyFound (r : InfoReply) : Prop :=
  canceled (infoErr r) = false /\ infoStatus r = Some 200.

Definition replyNotYet (r : InfoReply) : Prop :=
  canceled (infoErr r) = false /\ exists code, infoStatus r = Some code /\ code <> 200.

Definition replyNoResponse (r : InfoReply) : Prop :=
  canceled (infoErr r) = false /\ infoStatus r = None.

(** What [k] polls that find nothing yet leave in the log, from request
    number [c] on. *)
Fixpoint waiting (w : World) (id : Digest) (c k : nat) : list Event :=
  match k with
  | O => []
  | S k' => Info id (TransactionsInfo w c id) :: Sleep :: waiting w id (S c) k'
  end.

(** Whatever way the piece [m] ends, the events [t] it has added to the log
    satisfy [Q n t]; [n] is a budget that adds up along a sequence. *)
Definition frames {A} (Q : nat -> list Event -> Prop) (n : nat) (m : M A) : Prop :=
  forall s r s', m s = (r, s') -> exists t, trace s' = (trace s ++ t)%list /\ Q n t.

(** Events by kind. *)
Definition isBalanceQuery (e : Event) : bool :=
  match e with
  | BalanceDetails _ _ => true
  | _ => false
  end.

Definition isFeeQuery (e : Event) : bool :=
  match e with
  | ScriptInfo _ _ => true
  | _ => false
  end.

Definition isSignature (e : Event) : bool :=
  match e with
  | Signed _ _ _ => true
  | _ => false
  end.

(** The events of [broadcast] and [track]. *)
Definition isSubmission (e : Event) : bool :=
  match e with
  | Broadcast _ _ | Info _ _ | Sleep => true
  | _ => false
  end.

(** The transaction an event is about, if any. *)
Definition txOf (e : Event) : option Transaction :=
  match e with
  | Signed tx _ _ | Rendered tx _ | Broadcast tx _ => Some tx
  | _ => None
  end.

(** The events only the lease can leave: anything about a lease
    transaction. *)
Definition isLeaseEvent (e : Event) : bool :=
  match txOf e with
  | Some tx => isLease tx
  | None => false
  end.

Definition isActivation (e : Event) : bool :=
  match e with
  | ActivationStatus _ => true
  | _ => false
  end.

Definition count (p : Event -> bool) (t : list Event) : nat :=
  List.length (filter p t).

(** Every event of [t] satisfies [P], and at most [n] of them are of the
    kind [p]. *)
Definition within (P : Event -> Prop) (p : Event -> bool) (n : nat) (t : list Event)
  : Prop :=
  Forall P t /\ (count p t <= n)%nat.

(** In [t], whatever was signed was then rendered by [json.Marshal]. *)
Definition rendered (w : World) (t : list Event) : Prop :=
  forall tx key id, In (Signed tx key (Ok id)) t -> In (Rendered tx (Marshal w tx)) t.

(** [run] cut at the point where the version of the transactions is fixed:
    what comes before the chain facts, and what comes after. *)
Definition beforeFacts (w : World) (f : Flags) : M (Params * Client) :=
  up <- checkFlags w f ;;
  let (url, p) := up in
  cl <- connect w url ;;
  ret (p, cl).

Definition afterFacts (w : World) (f : Flags) (fuel : nat) (p : Params) (c : Chain)
  : M unit :=
  a <- resolveAccounts w f p (scheme c) ;;
  transferStep w f fuel c a ;;
  if transferOnly f then
    log "[INFO] OK" ;;
    exit None
  else
    leaseStep w f fuel c p a.

(** What a pass of the amount policy that goes through leaves in the log. *)
Definition amountLog (ph : Phase) (a : WavesAddress) (raw extraFee : Z) : list Event :=
  [BalanceDetails a (Ok raw);
   Log (text ph "[INFO] Balance of generation account '%s': %s"
                "[INFO] Balance of lessor account '%s': %s");
   Log (text ph "[INFO] Balance available for transfer: %s"
                "[INFO] Balance available for leasing: %s");
   ScriptInfo a (Ok extraFee);
   Log (if negb (extraFee =? 0)
        then text ph "[INFO] Extra fee on transfer: %s" "[INFO] Extra fee on lease: %s"
        else text ph "[INFO] No extra fee on transfer" "[INFO] No extra fee on lease")].

(** How a piece ends, whatever the type of its value. *)
Inductive Outcome : Type :=
| Goes
| Returns (err : option error)
| Panics
| Exhausted.

Definition outcome {A} (r : Result A) : Outcome :=
  match r with
  | Next _ => Goes
  | Return err => Returns err
  | Panic => Panics
  | OutOfFuel => Exhausted
  end.

(** Whatever way the piece [m] ends, the events [t] it has added to the log
    and the way [o] it has ended satisfy [Q t o]. *)
Definition ends {A} (Q : list Event -> Outcome -> Prop) (m : M A) : Prop :=
  forall s r s', m s = (r, s') ->
    exists t, trace s' = (trace s ++ t)%list /\ Q t (outcome r).

(** A request that the node answered with a cancellation. *)
Definition canceledReply (e : Event) : bool :=
  match e with
  | Height (Err x) | LastBlock (Err x) | ActivationStatus (Err x)
  | BalanceDetails _ (Err x) | ScriptInfo _ (Err x) => isCanceled x
  | Broadcast _ (Some x) => isCanceled x
  | Info _ r => canceled (infoErr r)
  | _ => false
  end.

(** A request, other than a poll, that failed for another reason. *)
Definition failedReply (e : Event) : bool :=
  match e with
  | Height (Err x) | LastBlock (Err x) | ActivationStatus (Err x)
  | BalanceDetails _ (Err x) | ScriptInfo _ (Err x) => negb (isCanceled x)
  | Broadcast _ (Some x) => negb (isCanceled x)
  | _ => false
  end.

(** A cancelled request is the last event and makes [run] return
    [errUserTermination]; a failed one is followed by one log line and makes
    it return [errFailure]. *)
Fixpoint verdict (t : list Event) (o : Outcome) : Prop :=
  match t with
  | [] => True
  | e :: t' =>
      if canceledReply e then t' = [] /\ o = Returns (Some errUserTermination)
      else if failedReply e then (exists line, t' = [Log line]) /\ o = Returns (Some errFailure)
      else verdict t' o
  end.

(** A return with one of the three errors of [lessor.go], or with nil. *)
Definition sentinel (o : Outcome) : Prop :=
  match o with
  | Returns (Some e) => e = errInvalidParameters \/ e = errUserTermination \/ e = errFailure
  | _ => True
  end.

(** The same without [errInvalidParameters]. *)
Definition failure (o : Outcome) : Prop :=
  match o with
  | Returns (Some e) => e = errUserTermination \/ e = errFailure
  | _ => True
  end.

Definition strict (t : list Event) (o : Outcome) : Prop :=
  failure o /\ verdict t o.

(** What the process writes without talking to anyone. *)
Definition isQuiet (e : Event) : bool :=
  match e with
  | Log _ | Usage | Stdout _ => true
  | _ => false
  end.

Definition offline (t : list Event) (o : Outcome) : Prop :=
  sentinel o /\ Forall (fun e => isQuiet e = true) t.

(** [run] from step 1 on. *)
Definition afterFlags (w : World) (f : Flags) (fuel : nat) (url : string) (p : Params)
  : M unit :=
  cl <- connect w url ;;
  c <- chainFacts w cl ;;
  afterFacts w f fuel p c.

(** The signature requests ([signature] true) or the broadcasts
    ([signature] false) of the lease ([lease] true) or of the transfer. *)
Definition isTxEvent (lease signature : bool) (e : Event) : bool :=
  match e with
  | Signed tx _ _ => signature && Bool.eqb (isLease tx) lease
  | Broadcast tx _ => negb signature && Bool.eqb (isLease tx) lease
  | _ => false
  end.

(** What must have happened before an event: a transaction is rendered or
    broadcast only once it is signed, and an identifier is polled only once
    the transaction it was given to is broadcast without error. *)
Definition allowedAfter (past : list Event) (e : Event) : Prop :=
  match e with
  | Rendered tx _ | Broadcast tx _ =>
      exists key id, In (Signed tx key (Ok id)) past
  | Info id _ =>
      exists tx key, In (Signed tx key (Ok id)) past /\ In (Broadcast tx None) past
  | _ => True
  end.

Fixpoint inOrder (past t : list Event) : Prop :=
  match t with
  | [] => True
  | e :: t' => allowedAfter past e /\ inOrder (past ++ [e]) t'
  end.

(** Whenever the piece [m] goes on, its value satisfies [R]. *)
Definition gives {A} (R : A -> Prop) (m : M A) : Prop :=
  forall s a s', m s = (Next a, s') -> R a.

(** The flags [f] with [-dry-run] set or cleared. *)
Definition withDryRun (b : bool) (f : Flags) : Flags :=
  {| nodeURL := nodeURL f;
     generatorSK := generatorSK f;
     lessorSK := lessorSK f;
     lessorPK := lessorPK f;
     leasingAddress := leasingAddress f;
     irreducibleBalance := irreducibleBalance f;
     leasingThreshold := leasingThreshold f;
     transferOnly := transferOnly f;
     recipientAddress := recipientAddress f;
     dryRun := b;
     testRun := testRun f;
     showHelp := showHelp f;
     showVersion := showVersion f |}.

(** Two pieces that end the same way, with the same value and after as many
    requests, when started after as many requests; their logs may differ. *)
Definition alike {A} (m1 m2 : M A) : Prop :=
  forall s1 s2, calls s1 = calls s2 ->
    fst (m1 s1) = fst (m2 s2) /\ calls (snd (m1 s1)) = calls (snd (m2 s2)).

(** [run] up to the construction of the transfer (line 361), and from its
    signature on. *)
Definition prepareTransfer (w : World) (f : Flags)
  : M (Params * Chain * Accounts * Transaction) :=
  up <- checkFlags w f ;;
  let (url, p) := up in
  cl <- connect w url ;;
  c <- chainFacts w cl ;;
  a <- resolveAccounts w f p (scheme c) ;;
  af <- amountPhase w f TransferPhase (generator a) ;;
  let (amount, fee) := af in
  t <- timestamp w ;;
  ret (p, c, a,
       TransferTx {| tVersion := txVer c; tSenderPK := pk (generator a);
                     tTimestamp := t; tAmount := amount; tFee := fee;
                     tRecipient := recipient (transferRecipient a) |}).

Definition finishRun (w : World) (f : Flags) (fuel : nat)
    (x : Params * Chain * Accounts * Transaction) : M unit :=
  let '(p, c, a, tx) := x in
  deliver w f fuel TransferPhase (scheme c) (sk (generator a)) tx ;;
  if transferOnly f then
    log "[INFO] OK" ;;
    exit None
  else
    leaseStep w f fuel c p a.

(** ** Facts on the machine integers *)

Lemma uint64_small z : Int.is_uint64 z -> Int.uint64 z = z.
Proof. unfold Int.is_uint64, Int.uint64. intros H. apply Z.mod_small. lia. Qed.

Lemma uint64_range z : Int.is_uint64 (Int.uint64 z).
Proof. unfold Int.is_uint64, Int.uint64. apply Z.mod_pos_bound. lia. Qed.

Lemma int64_range z : Int.is_int64 (Int.int64 z).
Proof.
  unfold Int.is_int64, Int.int64.
  pose proof (Z.mod_pos_bound (z + 2 ^ 63) (2 ^ 64) ltac:(lia)). lia.
Qed.

Lemma int64_small z : Int.is_int64 z -> Int.int64 z = z.
Proof.
  unfold Int.is_int64, Int.int64. intros H.
  rewrite Z.mod_small; lia.
Qed.

(** A [uint64] of at least 2^63 reads as a negative [int64]. *)
Lemma int64_high z : 2 ^ 63 <= z < 2 ^ 64 -> Int.int64 z = z - 2 ^ 64.
Proof.
  unfold Int.int64. intros H.
  replace (z + 2 ^ 63) with ((z - 2 ^ 63) + 1 * 2 ^ 64) by lia.
  rewrite Z.mod_add by lia. rewrite Z.mod_small; lia.
Qed.

(** The signed difference of line 325 in closed form: it is the exact
    difference when that fits [int64] and the difference less 2^64 when the
    exact one is 2^63 or more. *)
Lemma signed_difference balance irr :
  Int.is_uint64 balance -> 0 < irr < 2 ^ 63 ->
  Int.int64 (Int.int64 balance - irr) =
    if balance - irr <? 2 ^ 63 then balance - irr else balance - irr - 2 ^ 64.
Proof.
  unfold Int.is_uint64. intros Hb Hi.
  destruct (Z.ltb_spec (balance - irr) (2 ^ 63)) as [Hlt | Hge].
  - destruct (Z.lt_ge_cases balance (2 ^ 63)) as [Hs | Hs].
    + rewrite (int64_small balance) by (unfold Int.is_int64; lia).
      apply int64_small. unfold Int.is_int64. lia.
    + rewrite (int64_high balance) by lia.
      unfold Int.int64.
      replace (balance - 2 ^ 64 - irr + 2 ^ 63)
        with ((balance - irr + 2 ^ 63) + (-1) * 2 ^ 64) by lia.
      rewrite Z.mod_add by lia. rewrite Z.mod_small; lia.
  - rewrite (int64_high balance) by lia.
    replace (balance - irr - 2 ^ 64) with (balance - 2 ^ 64 - irr) by lia.
    apply int64_small. unfold Int.is_int64. lia.
Qed.

(** The reservation in closed form. *)
Lemma reserveIrreducible_closed irr balance :
  Int.is_uint64 balance -> Int.is_int64 irr ->
  reserveIrreducible irr balance =
    if 0 <? irr then
      if (0 <? balance - irr) && (balance - irr <? 2 ^ 63) then balance - irr else 0
    else balance.
Proof.
  unfold reserveIrreducible, Int.is_int64. intros Hb Hi.
  destruct (Z.ltb_spec 0 irr) as [Hpos | Hnp]; [ | reflexivity ].
  cbv zeta. rewrite signed_difference by (auto; lia).
  unfold Int.is_uint64 in Hb.
  destruct (Z.ltb_spec (balance - irr) (2 ^ 63)) as [Hlt | Hge].
  - destruct (Z.ltb_spec 0 (balance - irr)) as [Hp | Hn]; simpl; [ | reflexivity ].
    apply uint64_small. unfold Int.is_uint64. lia.
  - rewrite andb_false_r.
    destruct (Z.ltb_spec 0 (balance - irr - 2 ^ 64)); [ lia | reflexivity ].
Qed.

(** ** The amount policy *)

Lemma availableBalance_None irr testRun raw :
  availableBalance irr testRun raw = None <-> reserveIrreducible irr raw <= standardFee.
Proof.
  unfold availableBalance.
  destruct (Z.leb_spec (reserveIrreducible irr raw) standardFee); split;
    intros; (reflexivity || lia || discriminate).
Qed.

Lemma spendableAmount_NotEnough irr testRun raw extra :
  spendableAmount irr testRun raw extra = inl NotEnoughBalance
  <-> availableBalance irr testRun raw = None.
Proof.
  unfold spendableAmount.
  destruct (availableBalance irr testRun raw) as [b | ].
  - destruct (amountAndFee b extra); split; discriminate.
  - split; reflexivity.
Qed.

(** The second check fires on equality only: the difference of line 356 is
    unsigned, so it is never negative. *)
Lemma amountAndFee_None balance extra :
  Int.is_uint64 balance -> Int.is_uint64 (standardFee + extra) ->
  (amountAndFee balance extra = None <-> balance = standardFee + extra).
Proof.
  unfold amountAndFee, feeOf, amountOf. intros Hb Hf.
  rewrite (uint64_small _ Hf). cbv zeta.
  pose proof (uint64_range (balance - (standardFee + extra))) as Hr.
  unfold Int.is_uint64 in *.
  destruct (Z.leb_spec (Int.uint64 (balance - (standardFee + extra))) 0) as [Hz | Hz];
    split; intros H; try reflexivity; try discriminate.
  - assert (Hm : Int.uint64 (balance - (standardFee + extra)) = 0) by lia.
    unfold Int.uint64 in Hm.
    destruct (Z.lt_ge_cases balance (standardFee + extra)) as [Hlt | Hge].
    + replace (balance - (standardFee + extra))
        with ((balance - (standardFee + extra) + 2 ^ 64) + (-1) * 2 ^ 64) in Hm by lia.
      rewrite Z.mod_add in Hm by lia. rewrite Z.mod_small in Hm; lia.
    + rewrite Z.mod_small in Hm; lia.
  - subst balance. rewrite Z.sub_diag in Hz. unfold Int.uint64 in Hz.
    rewrite Z.mod_0_l in Hz; lia.
Qed.

(** Below the fee the difference wraps around and is taken for the amount. *)
Lemma amountAndFee_wraps balance extra :
  0 <= balance -> Int.is_uint64 (standardFee + extra) ->
  balance < standardFee + extra ->
  amountAndFee balance extra
  = Some (balance - (standardFee + extra) + 2 ^ 64, standardFee + extra).
Proof.
  unfold amountAndFee, feeOf, amountOf. intros Hb Hf Hlt.
  rewrite (uint64_small _ Hf). cbv zeta. unfold Int.is_uint64 in Hf.
  assert (Hw : Int.uint64 (balance - (standardFee + extra))
               = balance - (standardFee + extra) + 2 ^ 64).
  { unfold Int.uint64.
    replace (balance - (standardFee + extra))
      with ((balance - (standardFee + extra) + 2 ^ 64) + (-1) * 2 ^ 64) at 1 by lia.
    rewrite Z.mod_add by lia. apply Z.mod_small. lia. }
  rewrite Hw.
  destruct (Z.leb_spec (balance - (standardFee + extra) + 2 ^ 64) 0); [ lia | reflexivity ].
Qed.

(** Above the fee the amount is the exact difference. *)
Lemma amountAndFee_exact balance extra :
  Int.is_uint64 balance -> 0 <= extra -> standardFee + extra < balance ->
  amountAndFee balance extra
  = Some (balance - standardFee - extra, standardFee + extra).
Proof.
  unfold amountAndFee, feeOf, amountOf, Int.is_uint64. intros Hb He Hlt.
  assert (Hs : 0 <= standardFee) by (unfold standardFee; lia).
  rewrite (uint64_small (standardFee + extra)) by (unfold Int.is_uint64; lia).
  cbv zeta.
  rewrite uint64_small by (unfold Int.is_uint64; lia).
  destruct (Z.leb_spec (balance - (standardFee + extra)) 0); [ lia | ].
  f_equal. f_equal. lia.
Qed.

(** Where the signed reading of line 325 is exact, and outside the test
    run, one pass of the policy yields the exact remainder. *)
Lemma spendableAmount_exact raw irr extra :
  Int.is_uint64 raw -> Int.is_int64 irr -> 0 <= irr -> 0 <= extra ->
  raw - irr < 2 ^ 63 \/ irr = 0 ->
  irr + standardFee + extra < raw ->
  spendableAmount irr false raw extra
  = inr (raw - irr - standardFee - extra, standardFee + extra).
Proof.
  intros Hr Hi64 Hi He Hs Hlt.
  assert (Hf : 0 <= standardFee) by (unfold standardFee; lia).
  assert (Hb : reserveIrreducible irr raw = raw - irr).
  { rewrite reserveIrreducible_closed
      by (auto; unfold Int.is_int64, Int.is_uint64 in *; lia).
    destruct (Z.ltb_spec 0 irr) as [Hp | Hn].
    - destruct (Z.ltb_spec 0 (raw - irr)); [ | lia ].
      destruct (Z.ltb_spec (raw - irr) (2 ^ 63)); [ reflexivity | lia ].
    - lia. }
  unfold spendableAmount, availableBalance. cbv zeta. rewrite Hb.
  destruct (Z.leb_spec (raw - irr) standardFee); [ lia | ].
  unfold limitTestRun. rewrite andb_false_r.
  rewrite amountAndFee_exact by (unfold Int.is_uint64 in *; lia).
  reflexivity.
Qed.

(** C1, at a balance the claim covers: with a balance of 100001 after the
    reservation and the extra fee 400000 of a scripted account, the
    computation passes the check of line 332 and does not stop at the check
    of line 357: the unsigned difference wraps around to
    18446744073709151617, which is taken for the amount, and the sample run
    broadcasts a transfer of that amount. *)
Theorem amount_check_passes_below_fee :
  standardFee < 100001 <= standardFee + 400000 /\
  availableBalance 0 false 100001 = Some 100001 /\
  amountAndFee 100001 400000 = Some (18446744073709151617, 500000) /\
  spendableAmount 0 false 100001 400000 = inr (18446744073709151617, 500000) /\
  (exists t,
     In (Broadcast (TransferTx t) None)
        (trace (snd (run (sample 100001 0 400000 []) (flagsOf 0 0 false false) 4 start)))
     /\ tAmount t = 18446744073709151617 /\ tFee t = 500000).
Proof.
  split; [ unfold standardFee; lia | ].
  split; [ reflexivity | ].
  split; [ reflexivity | ].
  split; [ reflexivity | ].
  eexists. split.
  - vm_compute. do 19 right. left. reflexivity.
  - split; reflexivity.
Qed.

(** C2, at a balance the claim covers: the raw balance 2^63 + 200001 is
    above the reservation 1 plus the fee, yet [int64(balance)] is negative,
    the working balance is clamped to zero and the pass ends at
    "Not enough balance" instead of yielding 2^63 + 100000. *)
Theorem spendable_amount_lost_above_int64 :
  1 + standardFee + 0 < 2 ^ 63 + 200001 /\
  Int.is_uint64 (2 ^ 63 + 200001) /\
  Int.int64 (2 ^ 63 + 200001) = - 2 ^ 63 + 200001 /\
  reserveIrreducible 1 (2 ^ 63 + 200001) = 0 /\
  spendableAmount 1 false (2 ^ 63 + 200001) 0 = inl NotEnoughBalance.
Proof.
  unfold Int.is_uint64, standardFee. repeat split; try lia; reflexivity.
Qed.

(** C3: the reservation is the exact difference or zero (zero whenever the
    raw balance does not exceed it) and never negative; a pass ends at
    "Not enough balance" exactly when the balance left is at most
    [standardFee], and then right after the balance query, before the extra
    fee is asked for; otherwise the extra fee is asked for next. *)
Theorem reservation_and_balance_check (raw irr : Z) (test : bool) :
  Int.is_uint64 raw -> Int.is_int64 irr ->
  let b := reserveIrreducible irr raw in
  0 <= b /\
  (0 < irr -> b = raw - irr \/ b = 0) /\
  (irr <= 0 -> b = raw) /\
  (availableBalance irr test raw = None <-> b <= standardFee) /\
  (forall extra,
     spendableAmount irr test raw extra = inl NotEnoughBalance <-> b <= standardFee) /\
  (raw <= irr -> availableBalance irr test raw = None) /\
  (raw = standardFee -> irr = 0 -> availableBalance irr test raw = None) /\
  (forall w f ph who s,
     irreducibleBalance f = irr -> testRun f = test ->
     AddressesBalanceDetails w (calls s) (addr who) = Ok raw ->
     if b <=? standardFee then
       amountPhase w f ph who s
       = (Return (Some errFailure),
          {| trace := trace s ++
               [BalanceDetails (addr who) (Ok raw);
                Log (text ph "[INFO] Balance of generation account '%s': %s"
                             "[INFO] Balance of lessor account '%s': %s");
                Log (text ph "[ERROR] Not enough balance on generator's account"
                             "[ERROR] Not enough balance on lessor's account")];
             calls := S (calls s) |})
     else
       exists r s', amountPhase w f ph who s = (r, s') /\
         exists rest, trace s' = (trace s ++
               [BalanceDetails (addr who) (Ok raw);
                Log (text ph "[INFO] Balance of generation account '%s': %s"
                             "[INFO] Balance of lessor account '%s': %s");
                Log (text ph "[INFO] Balance available for transfer: %s"
                             "[INFO] Balance available for leasing: %s");
                ScriptInfo (addr who) (AddressesScriptInfo w (S (calls s)) (addr who))]
               ++ rest)%list).
Proof.
  intros Hr Hi b.
  assert (Hc := reserveIrreducible_closed irr raw Hr Hi). fold b in Hc.
  assert (Hf : 0 <= standardFee) by (unfold standardFee; lia).
  unfold Int.is_uint64, Int.is_int64 in *.
  assert (H0 : 0 <= b).
  { rewrite Hc. destruct (0 <? irr); [ | lia ].
    destruct (Z.ltb_spec 0 (raw - irr)); cbn [andb]; [ | lia ].
    destruct (raw - irr <? 2 ^ 63); lia. }
  assert (H1 : 0 < irr -> b = raw - irr \/ b = 0).
  { intros Hp. rewrite Hc. destruct (Z.ltb_spec 0 irr); [ | lia ].
    destruct ((0 <? raw - irr) && (raw - irr <? 2 ^ 63)); auto. }
  assert (H2 : irr <= 0 -> b = raw).
  { intros Hp. rewrite Hc. destruct (Z.ltb_spec 0 irr); [ lia | reflexivity ]. }
  assert (H3 : raw <= irr -> b <= standardFee).
  { intros Hle. rewrite Hc. destruct (Z.ltb_spec 0 irr).
    - destruct (Z.ltb_spec 0 (raw - irr)); cbn [andb]; lia.
    - lia. }
  split; [ exact H0 | ]. split; [ exact H1 | ]. split; [ exact H2 | ].
  split; [ apply availableBalance_None | ].
  split; [ intros extra; rewrite spendableAmount_NotEnough; apply availableBalance_None | ].
  split; [ intros Hle; apply availableBalance_None; auto | ].
  split; [ intros He Hz; apply availableBalance_None; fold b; rewrite H2; lia | ].
  intros w f ph who s Hirr Htr Hq.
  unfold amountPhase, getAvailableWavesBalance, getExtraFee, bind, request, log, emit, exit.
  rewrite Hq, Hirr, Htr.
  unfold availableBalance. cbv zeta. fold b.
  destruct (b <=? standardFee).
  - cbn. rewrite <- !app_assoc. reflexivity.
  - cbn.
    destruct (AddressesScriptInfo w (S (calls s)) (addr who)) as [extra | e].
    + cbn. destruct (amountAndFee (limitTestRun test b) extra) as [af | ].
      * do 2 eexists. split; [ reflexivity | ]. cbn.
        exists [Log (if negb (extra =? 0)
                     then text ph "[INFO] Extra fee on transfer: %s" "[INFO] Extra fee on lease: %s"
                     else text ph "[INFO] No extra fee on transfer" "[INFO] No extra fee on lease")].
        rewrite <- !app_assoc. reflexivity.
      * do 2 eexists. split; [ reflexivity | ]. cbn.
        eexists [_; _]. rewrite <- !app_assoc. reflexivity.
    + unfold failed. destruct (isCanceled e).
      * do 2 eexists. split; [ reflexivity | ]. cbn.
        exists []. rewrite <- !app_assoc. reflexivity.
      * do 2 eexists. split; [ reflexivity | ]. cbn.
        eexists [_]. rewrite <- !app_assoc. reflexivity.
Qed.

Lemma reservation_and_balance_check_witness :
  let b := reserveIrreducible 100000000 150000000 in
  0 <= b /\
  (availableBalance 100000000 false 150000000 = None <-> b <= standardFee).
Proof.
  assert (Hr : Int.is_uint64 150000000) by (unfold Int.is_uint64; lia).
  assert (Hi : Int.is_int64 100000000) by (unfold Int.is_int64; lia).
  destruct (reservation_and_balance_check 150000000 100000000 false Hr Hi)
    as (H0 & _ & _ & H3 & _).
  split; [ exact H0 | exact H3 ].
Defined.

(** C10, as amended: when the raw balance exceeds a positive reservation by
    2^63 or more, the signed difference of line 325 is negative, the working
    balance is clamped to zero and the pass ends at "Not enough balance",
    whatever the extra fee; when the raw balance is 2^63 or more but exceeds
    the reservation by less than 2^63, the signed difference wraps back to
    the exact difference and that is the working balance. *)
Theorem high_balance_reservation (raw irr : Z) (test : bool) :
  Int.is_uint64 raw -> 0 < irr < 2 ^ 63 -> 2 ^ 63 <= raw ->
  Int.int64 raw < 0 /\
  (2 ^ 63 <= raw - irr ->
     Int.int64 (Int.int64 raw - irr) < 0 /\
     reserveIrreducible irr raw = 0 /\
     availableBalance irr test raw = None /\
     forall extra, spendableAmount irr test raw extra = inl NotEnoughBalance) /\
  (raw - irr < 2 ^ 63 ->
     Int.int64 (Int.int64 raw - irr) = raw - irr /\
     reserveIrreducible irr raw = raw - irr).
Proof.
  intros Hr Hi Hh.
  assert (Hc := reserveIrreducible_closed irr raw Hr
                  ltac:(unfold Int.is_int64; lia)).
  assert (Hd := signed_difference raw irr Hr Hi).
  unfold Int.is_uint64 in Hr.
  split; [ rewrite int64_high; lia | ].
  destruct (Z.ltb_spec 0 irr); [ | lia ].
  split.
  - intros Hge.
    destruct (Z.ltb_spec (raw - irr) (2 ^ 63)); [ lia | ].
    rewrite andb_false_r in Hc.
    assert (Ha : availableBalance irr test raw = None).
    { apply availableBalance_None. rewrite Hc. unfold standardFee. lia. }
    split; [ lia | ]. split; [ exact Hc | ]. split; [ exact Ha | ].
    intros extra. apply spendableAmount_NotEnough. exact Ha.
  - intros Hlt.
    destruct (Z.ltb_spec (raw - irr) (2 ^ 63)); [ | lia ].
    destruct (Z.ltb_spec 0 (raw - irr)); [ | lia ].
    split; [ exact Hd | exact Hc ].
Qed.

Lemma high_balance_reservation_witness :
  reserveIrreducible 100000000 (2 ^ 63 + 100000000) = 0 /\
  availableBalance 100000000 false (2 ^ 63 + 100000000) = None.
Proof.
  assert (Hr : Int.is_uint64 (2 ^ 63 + 100000000)) by (unfold Int.is_uint64; lia).
  assert (Hi : 0 < 100000000 < 2 ^ 63) by lia.
  assert (Hh : 2 ^ 63 <= 2 ^ 63 + 100000000) by lia.
  destruct (high_balance_reservation (2 ^ 63 + 100000000) 100000000 false Hr Hi Hh)
    as (_ & Hz & _).
  destruct (Hz ltac:(lia)) as (_ & H1 & H2 & _).
  split; [ exact H1 | exact H2 ].
Defined.

(** The claim C10 as first stated fails at the raw balance 2^63 with a
    reservation of 1: the signed difference wraps around to 2^63 - 1, which
    is positive, so nothing is clamped and the balance check is passed. *)
Lemma high_balance_not_always_clamped :
  2 ^ 63 <= 2 ^ 63 < 2 ^ 64 /\ 0 < 1 /\
  Int.int64 (2 ^ 63) = - 2 ^ 63 /\
  reserveIrreducible 1 (2 ^ 63) = 2 ^ 63 - 1 /\
  availableBalance 1 false (2 ^ 63) = Some (2 ^ 63 - 1) /\
  spendableAmount 1 false (2 ^ 63) 0 = inr (2 ^ 63 - 1 - 100000, 100000).
Proof.
  repeat split; try lia; reflexivity.
Qed.

(** ** The confirmation tracker *)

Lemma replies_exhaustive r :
  replyCanceled r \/ replyFound r \/ replyNotYet r \/ replyNoResponse r.
Proof.
  unfold replyCanceled, replyFound, replyNotYet, replyNoResponse.
  destruct (canceled (infoErr r)); [ left; reflexivity | right ].
  destruct (infoStatus r) as [code | ].
  - destruct (Z.eq_dec code 200) as [-> | Hne].
    + left. auto.
    + right. left. split; [ reflexivity | ]. exists code. auto.
  - right. right. auto.
Qed.

Lemma poll_not_yet w fuel id s :
  replyNotYet (TransactionsInfo w (calls s) id) ->
  poll w (S fuel) id s
  = poll w fuel id
      {| trace := trace s ++ [Info id (TransactionsInfo w (calls s) id); Sleep];
         calls := S (calls s) |}.
Proof.
  intros (Hc & code & Hs & Hne).
  cbn [poll]. unfold bind at 1. unfold request at 1. cbv zeta.
  rewrite Hc, Hs.
  destruct (Z.eqb_spec code 200) as [ | _]; [ contradiction | ].
  unfold bind, emit. cbn [trace calls].
  rewrite <- app_assoc. reflexivity.
Qed.

Lemma poll_waiting w id k : forall s fuel,
  (forall j, (j < k)%nat -> replyNotYet (TransactionsInfo w (calls s + j) id)) ->
  poll w (k + fuel) id s
  = poll w fuel id
      {| trace := trace s ++ waiting w id (calls s) k; calls := (calls s + k)%nat |}.
Proof.
  induction k as [ | k IH]; intros s fuel Hw.
  - cbn [waiting Nat.add]. rewrite app_nil_r, Nat.add_0_r. destruct s; reflexivity.
  - cbn [Nat.add]. rewrite poll_not_yet.
    2:{ specialize (Hw 0%nat). rewrite Nat.add_0_r in Hw. apply Hw. lia. }
    rewrite IH.
    + cbn [trace calls waiting]. f_equal. f_equal.
      * rewrite <- app_assoc. reflexivity.
      * lia.
    + intros j Hj. cbn [calls].
      replace (S (calls s) + j)%nat with (calls s + S j)%nat by lia.
      apply Hw. lia.
Qed.

(** However a poll loop ends, it never makes [run] return by itself, and the
    only error it hands back is the cancellation. *)
Lemma poll_outcome w id fuel : forall s r s',
  poll w fuel id s = (r, s') ->
  match r with
  | Next None =>
      exists t reply, trace s' = (trace s ++ t ++ [Info id reply])%list /\ replyFound reply
  | Next (Some e) =>
      isCanceled e = true /\
      exists t reply, trace s' = (trace s ++ t ++ [Info id reply])%list
                      /\ replyCanceled reply /\ infoErr reply = Some e
  | Panic =>
      exists t reply, trace s' = (trace s ++ t ++ [Info id reply])%list
                      /\ replyNoResponse reply
  | OutOfFuel => calls s' = (calls s + fuel)%nat
  | Return _ => False
  end.
Proof.
  induction fuel as [ | fuel IH]; intros s r s' H.
  - cbn in H. inversion H; subst. cbn. lia.
  - cbn [poll] in H. unfold bind at 1 in H. unfold request at 1 in H. cbv zeta in H.
    set (reply := TransactionsInfo w (calls s) id) in *.
    destruct (canceled (infoErr reply)) eqn:Hc.
    + cbn in H. inversion H; subst; clear H.
      destruct (infoErr reply) as [e | ] eqn:He; [ | discriminate ].
      cbn in Hc. split; [ exact Hc | ].
      exists [], reply. cbn. repeat split; auto.
      unfold replyCanceled. rewrite He. exact Hc.
    + destruct (infoStatus reply) as [code | ] eqn:Hs.
      * destruct (Z.eqb_spec code 200) as [-> | Hne].
        -- cbn in H. inversion H; subst; clear H.
           exists [], reply. cbn. split; [ reflexivity | ]. split; assumption.
        -- unfold bind, emit in H. cbn [trace calls] in H.
           apply IH in H. cbn [trace calls] in H.
           destruct r as [[e | ] | | | ].
           ++ destruct H as (Hi & t & rp & Ht & Hr). split; [ exact Hi | ].
              exists (Info id reply :: Sleep :: t), rp.
              rewrite Ht, <- !app_assoc. cbn. auto.
           ++ destruct H as (t & rp & Ht & Hr).
              exists (Info id reply :: Sleep :: t), rp.
              rewrite Ht, <- !app_assoc. cbn. auto.
           ++ exact H.
           ++ destruct H as (t & rp & Ht & Hr).
              exists (Info id reply :: Sleep :: t), rp.
              rewrite Ht, <- !app_assoc. cbn. auto.
           ++ lia.
      * cbn in H. inversion H; subst; clear H.
        exists [], reply. cbn. split; [ reflexivity | ]. split; assumption.
Qed.

(** C6: [track] polls until the endpoint answers 200 or the run is
    cancelled.  After [k] polls that found nothing yet: a 200 makes it hand
    back nil, a cancellation makes it hand back the cancellation error, and a
    missing response (a transport failure) makes it panic, whatever fuel
    beyond [k] the model has; while every poll finds nothing yet, no amount
    of fuel makes it end; and it ends in no other way. *)
Theorem track_waits_until_found_or_cancelled (w : World) (id : Digest) (s : State) :
  let line := Log "[INFO] Waiting for transaction '%s' on blockchain..." in
  (forall k,
     (forall j, (j < k)%nat -> replyNotYet (TransactionsInfo w (calls s + j) id)) ->
     let reply := TransactionsInfo w (calls s + k) id in
     let s' := {| trace := trace s ++ line :: waiting w id (calls s) k ++ [Info id reply];
                  calls := S (calls s + k) |} in
     forall fuel, (k < fuel)%nat ->
       (replyFound reply -> track w fuel id s = (Next None, s')) /\
       (replyCanceled reply -> track w fuel id s = (Next (infoErr reply), s')) /\
       (replyNoResponse reply -> track w fuel id s = (Panic, s'))) /\
  ((forall j, replyNotYet (TransactionsInfo w (calls s + j) id)) ->
   forall fuel,
     track w fuel id s
     = (OutOfFuel,
        {| trace := trace s ++ line :: waiting w id (calls s) fuel;
           calls := (calls s + fuel)%nat |})) /\
  (forall fuel r s',
     track w fuel id s = (r, s') ->
     match r with
     | Next None => exists t reply,
         trace s' = (trace s ++ line :: t ++ [Info id reply])%list /\ replyFound reply
     | Next (Some e) => isCanceled e = true
     | Panic => exists t reply,
         trace s' = (trace s ++ line :: t ++ [Info id reply])%list /\ replyNoResponse reply
     | OutOfFuel => True
     | Return _ => False
     end).
Proof.
  intros line.
  assert (Htrack : forall fuel,
    track w fuel id s
    = poll w fuel id {| trace := trace s ++ [line]; calls := calls s |}) by reflexivity.
  split; [ | split ].
  - intros k Hw reply s' fuel Hlt.
    assert (exists m, fuel = (k + S m)%nat) as [m ->] by (exists (fuel - S k)%nat; lia).
    assert (Hrun : track w (k + S m) id s
                   = (if canceled (infoErr reply) then ret (infoErr reply)
                      else match infoStatus reply with
                           | Some code =>
                               if code =? 200 then ret None
                               else emit Sleep ;; poll w m id
                           | None => panic
                           end) s').
    { rewrite Htrack.
      rewrite poll_waiting by (cbn [calls]; exact Hw).
      cbn [trace calls poll]. unfold bind at 1. unfold request at 1. cbv zeta.
      cbn [trace calls]. fold reply.
      replace (((trace s ++ [line]) ++ waiting w id (calls s) k) ++ [Info id reply])%list
        with (trace s ++ line :: waiting w id (calls s) k ++ [Info id reply])%list
        by (rewrite <- !app_assoc; reflexivity).
      reflexivity. }
    rewrite Hrun.
    split; [ | split ].
    + intros (Hc & Hst). rewrite Hc, Hst. reflexivity.
    + intros Hc. unfold replyCanceled in Hc. rewrite Hc. reflexivity.
    + intros (Hc & Hst). rewrite Hc, Hst. reflexivity.
  - intros Hw fuel. rewrite Htrack.
    replace fuel with (fuel + 0)%nat at 1 by lia.
    rewrite poll_waiting by (intros j _; cbn [calls]; apply Hw).
    cbn. rewrite <- app_assoc. reflexivity.
  - intros fuel r s' H. rewrite Htrack in H.
    apply poll_outcome in H. cbn [trace calls] in H.
    destruct r as [[e | ] | | | ]; auto.
    + apply H.
    + destruct H as (t & rp & Ht & Hr). exists t, rp.
      rewrite Ht, <- !app_assoc. auto.
    + destruct H as (t & rp & Ht & Hr). exists t, rp.
      rewrite Ht, <- !app_assoc. auto.
Qed.

Lemma track_waits_until_found_or_cancelled_witness :
  track (sample 0 0 0 []) 2 "transfer-id" start
  = (Next None,
     {| trace := [Log "[INFO] Waiting for transaction '%s' on blockchain...";
                  Info "transfer-id" (sampleInfo 0); Sleep;
                  Info "transfer-id" (sampleInfo 1)];
        calls := 2 |}).
Proof.
  destruct (track_waits_until_found_or_cancelled (sample 0 0 0 []) "transfer-id" start)
    as (H & _).
  assert (Hw : forall j, (j < 1)%nat ->
            replyNotYet (TransactionsInfo (sample 0 0 0 []) (calls start + j) "transfer-id")).
  { intros j Hj. assert (j = 0%nat) as -> by lia.
    split; [ reflexivity | ]. exists 404. split; [ reflexivity | discriminate ]. }
  destruct (H 1%nat Hw 2%nat ltac:(lia)) as (Hf & _).
  apply Hf. split; reflexivity.
Defined.

(** ** What the pieces of [run] add to the log *)

Section Frames.

Variable Q : nat -> list Event -> Prop.
Hypothesis Q_nil : Q 0%nat [].
Hypothesis Q_app :
  forall n1 n2 t1 t2, Q n1 t1 -> Q n2 t2 -> Q (n1 + n2)%nat (t1 ++ t2)%list.
Hypothesis Q_mono : forall n n' t, (n <= n')%nat -> Q n t -> Q n' t.
Hypothesis Q_log : forall line, Q 0%nat [Log line].

Lemma frames_silent A (m : M A) :
  (forall s, exists r, m s = (r, s)) -> frames Q 0 m.
Proof.
  intros Hm s r s' H. destruct (Hm s) as [r0 Hr]. rewrite Hr in H.
  inversion H; subst. exists []. rewrite app_nil_r. auto.
Qed.

Lemma frames_ret A (a : A) : frames Q 0 (ret a).
Proof. apply frames_silent. intros s. eexists. reflexivity. Qed.

Lemma frames_exit A err : frames Q 0 (@exit A err).
Proof. apply frames_silent. intros s. eexists. reflexivity. Qed.

Lemma frames_panic A : frames Q 0 (@panic A).
Proof. apply frames_silent. intros s. eexists. reflexivity. Qed.

Lemma frames_outOfFuel A : frames Q 0 (@outOfFuel A).
Proof. apply frames_silent. intros s. eexists. reflexivity. Qed.

Lemma frames_timestamp w : frames Q 0 (timestamp w).
Proof. apply frames_silent. intros s. eexists. reflexivity. Qed.

Lemma frames_emit n e : Q n [e] -> frames Q n (emit e).
Proof.
  intros He s r s' H. inversion H; subst. exists [e]. auto.
Qed.

Lemma frames_log line : frames Q 0 (log line).
Proof. apply frames_emit, Q_log. Qed.

Lemma frames_request A (oracle : nat -> A) (event : A -> Event) n :
  (forall a, Q n [event a]) -> frames Q n (request oracle event).
Proof.
  intros He s r s' H. inversion H; subst. eexists. split; [ reflexivity | apply He ].
Qed.

Lemma frames_mono A (m : M A) n n' :
  (n <= n')%nat -> frames Q n m -> frames Q n' m.
Proof.
  intros Hle Hm s r s' H. destruct (Hm s r s' H) as (t & Ht & HQ).
  exists t. eauto.
Qed.

Lemma frames_bind A B (m : M A) (k : A -> M B) n1 n2 :
  frames Q n1 m -> (forall a, frames Q n2 (k a)) -> frames Q (n1 + n2) (bind m k).
Proof.
  intros Hm Hk s r s' H. unfold bind in H.
  destruct (m s) as [r1 s1] eqn:E1.
  destruct (Hm s r1 s1 E1) as (t1 & Ht1 & HQ1).
  destruct r1 as [a | err | | ].
  - destruct (Hk a s1 r s' H) as (t2 & Ht2 & HQ2).
    exists (t1 ++ t2)%list. rewrite Ht2, Ht1, app_assoc. auto.
  - inversion H; subst. exists t1. split; [ assumption | ].
    apply Q_mono with n1; [ lia | assumption ].
  - inversion H; subst. exists t1. split; [ assumption | ].
    apply Q_mono with n1; [ lia | assumption ].
  - inversion H; subst. exists t1. split; [ assumption | ].
    apply Q_mono with n1; [ lia | assumption ].
Qed.

Lemma frames_seq A B (m : M A) (k : A -> M B) :
  frames Q 0 m -> (forall a, frames Q 0 (k a)) -> frames Q 0 (bind m k).
Proof. intros Hm Hk. apply (frames_bind A B m k 0 0); assumption. Qed.

Lemma frames_lib A (reply : A) (event : A -> Event) n :
  Q n [event reply] -> frames Q n (lib reply event).
Proof.
  intros He. unfold lib.
  apply (frames_mono _ _ (n + 0)); [ lia | ].
  apply frames_bind; [ apply frames_emit, He | intros _; apply frames_ret ].
Qed.

Lemma frames_when c (m : M unit) : frames Q 0 m -> frames Q 0 (when c m).
Proof. intros Hm. destruct c; [ exact Hm | apply frames_ret ]. Qed.

Lemma frames_failed A e line : frames Q 0 (@failed A e line).
Proof.
  unfold failed. destruct (isCanceled e); [ apply frames_exit | ].
  apply frames_seq; [ apply frames_log | intros _; apply frames_exit ].
Qed.

(** Breaks a piece down to the events it emits. *)
Ltac frame :=
  repeat first
    [ apply frames_ret | apply frames_exit | apply frames_panic
    | apply frames_outOfFuel | apply frames_timestamp
    | apply frames_log | apply frames_failed
    | apply frames_when
    | apply frames_seq; [ | intros ? ]
    | match goal with
      | |- frames _ _ (match ?x with _ => _ end) => destruct x
      | |- frames _ _ (let (_, _) := ?x in _) => destruct x
      end ].

Lemma frames_poll w id :
  (forall r, Q 0%nat [Info id r]) -> Q 0%nat [Sleep] ->
  forall fuel, frames Q 0 (poll w fuel id).
Proof.
  intros HI HS. induction fuel as [ | fuel IH]; cbn [poll].
  - apply frames_outOfFuel.
  - apply frames_seq; [ apply frames_request, HI | intros r ].
    frame; [ apply frames_emit, HS | exact IH ].
Qed.

Lemma frames_track w fuel id :
  (forall r, Q 0%nat [Info id r]) -> Q 0%nat [Sleep] ->
  frames Q 0 (track w fuel id).
Proof.
  intros HI HS. unfold track.
  apply frames_seq; [ apply frames_log | intros _; apply frames_poll; assumption ].
Qed.

Lemma frames_checkFlags w f :
  Q 0%nat [Usage] -> (forall line, Q 0%nat [Stdout line]) ->
  frames Q 0 (checkFlags w f).
Proof.
  intros HU HO. unfold checkFlags, decodeKeys.
  frame; try (apply frames_emit; auto).
Qed.

Lemma frames_connect w url :
  (forall r, Q 0%nat [Height r]) -> frames Q 0 (connect w url).
Proof.
  intros HH. unfold connect, nodeClient.
  frame; apply frames_request, HH.
Qed.

Lemma frames_chainFacts w cl :
  (forall r, Q 0%nat [LastBlock r]) -> (forall r, Q 0%nat [ActivationStatus r]) ->
  frames Q 0 (chainFacts w cl).
Proof.
  intros HL HA. unfold chainFacts, getScheme, isProtobufActivated.
  frame; apply frames_request; assumption.
Qed.

Lemma frames_resolveAccounts w f p sch : frames Q 0 (resolveAccounts w f p sch).
Proof. unfold resolveAccounts. frame. Qed.

Lemma frames_amountPhase w f ph who nb nf :
  (forall r, Q nb [BalanceDetails (addr who) r]) ->
  (forall r, Q nf [ScriptInfo (addr who) r]) ->
  frames Q (nb + nf) (amountPhase w f ph who).
Proof.
  intros HB HF. unfold amountPhase, getAvailableWavesBalance, getExtraFee.
  apply frames_bind; [ apply frames_request, HB | intros r ].
  destruct r as [balance | e].
  - apply (frames_mono _ _ (0 + nf)); [ lia | ].
    apply frames_bind; [ apply frames_log | intros _ ].
    destruct (availableBalance (irreducibleBalance f) (testRun f) balance) as [b | ].
    + apply (frames_mono _ _ (0 + nf)); [ lia | ].
      apply frames_bind; [ apply frames_log | intros _ ].
      apply (frames_mono _ _ (nf + 0)); [ lia | ].
      apply frames_bind; [ apply frames_request, HF | intros r ].
      frame.
    + apply (frames_mono _ _ 0); [ lia | ]. frame.
  - apply (frames_mono _ _ 0); [ lia | ]. frame.
Qed.

Lemma frames_deliver w f fuel ph sch key tx :
  (forall r, Q 0%nat [Signed tx key r]) ->
  (dryRun f = true -> forall r, Q 0%nat [Rendered tx r]) ->
  (dryRun f = false ->
     (forall r, Q 0%nat [Broadcast tx r]) /\
     (forall id r, Q 0%nat [Info id r]) /\ Q 0%nat [Sleep]) ->
  frames Q 0 (deliver w f fuel ph sch key tx).
Proof.
  intros HS HR HB. unfold deliver.
  apply frames_seq; [ apply frames_lib, HS | intros r ].
  destruct r as [id | e]; [ | frame ].
  destruct (dryRun f).
  - apply frames_seq; [ apply frames_lib, HR; reflexivity | intros r ].
    frame.
  - destruct (HB eq_refl) as (H1 & H2 & H3).
    apply frames_seq; [ apply frames_log | intros _ ].
    apply frames_seq; [ apply frames_request, H1 | intros r ].
    destruct r as [e | ]; [ frame | ].
    apply frames_seq; [ apply frames_track; auto | intros r ].
    frame.
Qed.

Lemma frames_transferStep w f fuel c a nb nf :
  (forall r, Q nb [BalanceDetails (addr (generator a)) r]) ->
  (forall r, Q nf [ScriptInfo (addr (generator a)) r]) ->
  (forall t key, tVersion t = txVer c ->
     frames Q 0 (deliver w f fuel TransferPhase (scheme c) key (TransferTx t))) ->
  frames Q (nb + nf) (transferStep w f fuel c a).
Proof.
  intros HB HF HD. unfold transferStep.
  apply (frames_mono _ _ ((nb + nf) + 0)); [ lia | ].
  apply frames_bind; [ apply frames_amountPhase; assumption | intros [amount fee] ].
  apply frames_seq; [ apply frames_timestamp | intros t ].
  apply HD. reflexivity.
Qed.

Lemma frames_leaseStep w f fuel c p a nb nf :
  (forall r, Q nb [BalanceDetails (addr (lessor a)) r]) ->
  (forall r, Q nf [ScriptInfo (addr (lessor a)) r]) ->
  (forall l key, lVersion l = txVer c ->
     frames Q 0 (deliver w f fuel LeasePhase (scheme c) key (LeaseTx l))) ->
  frames Q (nb + nf) (leaseStep w f fuel c p a).
Proof.
  intros HB HF HD. unfold leaseStep.
  apply (frames_mono _ _ ((nb + nf) + 0)); [ lia | ].
  apply frames_bind; [ apply frames_amountPhase; assumption | intros [amount fee] ].
  apply frames_seq; [ frame | intros _ ].
  apply frames_seq; [ apply frames_timestamp | intros t ].
  apply frames_seq; [ apply HD; reflexivity | intros _ ].
  frame.
Qed.

(** The whole of [run]: at most one balance query and one fee query for
    the transfer, and as many again unless the run is transfer-only. *)
Lemma frames_run w f fuel nb nf :
  Q 0%nat [Usage] -> (forall line, Q 0%nat [Stdout line]) ->
  (forall r, Q 0%nat [Height r]) ->
  (forall r, Q 0%nat [LastBlock r]) -> (forall r, Q 0%nat [ActivationStatus r]) ->
  (forall a r, Q nb [BalanceDetails a r]) ->
  (forall a r, Q nf [ScriptInfo a r]) ->
  (forall sch t key,
     frames Q 0 (deliver w f fuel TransferPhase sch key (TransferTx t))) ->
  (transferOnly f = false ->
   forall sch l key,
     frames Q 0 (deliver w f fuel LeasePhase sch key (LeaseTx l))) ->
  frames Q ((nb + nf) + (if transferOnly f then 0 else nb + nf)) (run w f fuel).
Proof.
  intros HU HO HH HL HA HB HF HT HLe. unfold run.
  apply frames_bind.
  - unfold throughTransfer.
    apply (frames_mono _ _ (0 + (nb + nf))); [ lia | ].
    apply frames_bind; [ apply frames_checkFlags; assumption | intros [url p] ].
    apply (frames_mono _ _ (0 + (nb + nf))); [ lia | ].
    apply frames_bind; [ apply frames_connect; assumption | intros cl ].
    apply (frames_mono _ _ (0 + (nb + nf))); [ lia | ].
    apply frames_bind; [ apply frames_chainFacts; assumption | intros c ].
    apply (frames_mono _ _ (0 + (nb + nf))); [ lia | ].
    apply frames_bind; [ apply frames_resolveAccounts | intros a ].
    apply (frames_mono _ _ ((nb + nf) + 0)); [ lia | ].
    apply frames_bind; [ | intros _; apply frames_ret ].
    apply frames_transferStep; auto.
  - intros [[c p] a]. destruct (transferOnly f).
    + frame.
    + apply frames_leaseStep; auto.
Qed.

End Frames.

(** ** Instances of the log predicates *)

Lemma count_app p t1 t2 : count p (t1 ++ t2) = (count p t1 + count p t2)%nat.
Proof. unfold count. rewrite filter_app, length_app. reflexivity. Qed.

Lemma within_nil P p : within P p 0 [].
Proof. split; [ constructor | cbn; lia ]. Qed.

Lemma within_app P p n1 n2 t1 t2 :
  within P p n1 t1 -> within P p n2 t2 -> within P p (n1 + n2) (t1 ++ t2).
Proof.
  intros [H1 C1] [H2 C2]. split.
  - apply Forall_app. auto.
  - rewrite count_app. lia.
Qed.

Lemma within_mono P p n n' t : (n <= n')%nat -> within P p n t -> within P p n' t.
Proof. intros Hle [H C]. split; [ assumption | lia ]. Qed.

Lemma within_one (P : Event -> Prop) (p : Event -> bool) (n : nat) (e : Event) :
  P e -> ((if p e then 1 else 0) <= n)%nat -> within P p n [e].
Proof.
  intros HP Hn. split; [ constructor; auto | ].
  unfold count. cbn. destruct (p e); cbn; lia.
Qed.

Lemma rendered_app w t1 t2 : rendered w t1 -> rendered w t2 -> rendered w (t1 ++ t2).
Proof.
  intros H1 H2 tx key id Hin. apply in_app_iff in Hin. apply in_app_iff.
  destruct Hin; [ left | right ]; eauto.
Qed.

Lemma rendered_unsigned w t : Forall (fun e => isSignature e = false) t -> rendered w t.
Proof.
  intros H tx key id Hin. rewrite Forall_forall in H.
  apply H in Hin. discriminate.
Qed.

(** The log only grows. *)
Lemma track_extends w fuel id s r s' :
  track w fuel id s = (r, s') -> exists t, trace s' = (trace s ++ t)%list.
Proof.
  intros H.
  destruct (frames_track (fun _ _ => True) I (fun _ _ _ _ _ _ => I) (fun _ _ _ _ _ => I)
              (fun _ => I) w fuel id (fun _ => I) I s r s' H) as (t & Ht & _).
  exists t. exact Ht.
Qed.

(** ** Dry run *)

(** [deliver] in a dry run, in closed form. *)
Lemma deliver_dry_run w f fuel ph sch key tx s :
  dryRun f = true ->
  deliver w f fuel ph sch key tx s
  = match Sign w sch key tx with
    | Err _ =>
        (Return (Some errFailure),
         {| trace := trace s ++
              [Signed tx key (Sign w sch key tx);
               Log (text ph "[ERROR] Failed to sign transfer transaction: %v"
                            "[ERROR] Failed to sign lease transaction: %v")];
            calls := calls s |})
    | Ok _ =>
        match Marshal w tx with
        | Err _ =>
            (Return (Some errFailure),
             {| trace := trace s ++
                  [Signed tx key (Sign w sch key tx); Rendered tx (Marshal w tx);
                   Log "[ERROR] Failed to make transaction json: %v"];
                calls := calls s |})
        | Ok _ =>
            (Next tt,
             {| trace := trace s ++
                  [Signed tx key (Sign w sch key tx); Rendered tx (Marshal w tx);
                   Log (text ph "[INFO] Transfer transaction:\n%s"
                                "[INFO] Lease transaction:\n%s")];
                calls := calls s |})
        end
    end.
Proof.
  intros Hd. unfold deliver, lib, log, emit, exit, ret, bind. rewrite Hd.
  cbn [trace calls].
  destruct (Sign w sch key tx) as [id | e]; cbn [trace calls].
  - destruct (Marshal w tx) as [b | e]; cbn [trace calls];
      rewrite <- !app_assoc; reflexivity.
  - rewrite <- !app_assoc. reflexivity.
Qed.

(** C8: in a dry run nothing is broadcast and nothing is tracked, and every
    transaction that a signature was obtained for, the transfer and the
    lease alike, is rendered by [json.Marshal]. *)
Theorem dry_run_touches_nothing (w : World) (f : Flags) (fuel : nat) :
  dryRun f = true ->
  forall s r s',
    run w f fuel s = (r, s') ->
    exists t,
      trace s' = (trace s ++ t)%list /\
      Forall (fun e => isSubmission e = false) t /\
      rendered w t.
Proof.
  intros Hd.
  set (Q := fun (_ : nat) t => Forall (fun e => isSubmission e = false) t /\ rendered w t).
  assert (Q_nil : Q 0%nat []).
  { split; [ constructor | intros tx key id [] ]. }
  assert (Q_app : forall n1 n2 t1 t2, Q n1 t1 -> Q n2 t2 -> Q (n1 + n2)%nat (t1 ++ t2)%list).
  { intros n1 n2 t1 t2 [F1 R1] [F2 R2]. split.
    - apply Forall_app. auto.
    - apply rendered_app; assumption. }
  assert (Q_mono : forall n n' t, (n <= n')%nat -> Q n t -> Q n' t) by (intros; assumption).
  assert (Q_one : forall e, isSubmission e = false -> isSignature e = false -> Q 0%nat [e]).
  { intros e H1 H2. split; [ constructor; auto | ].
    apply rendered_unsigned. constructor; auto. }
  assert (Q_deliver : forall ph sch key tx, frames Q 0 (deliver w f fuel ph sch key tx)).
  { intros ph sch key tx s r s' H. rewrite deliver_dry_run in H by assumption.
    destruct (Sign w sch key tx) as [id | e] eqn:HS.
    - assert (HQ : forall line,
                Q 0%nat [Signed tx key (Ok id); Rendered tx (Marshal w tx); Log line]).
      { intros line. split; [ repeat constructor | ].
        intros tx' key' id' Hin. cbn in Hin.
        destruct Hin as [Hin | [Hin | [Hin | []]]]; try discriminate.
        inversion Hin; subst. cbn. auto. }
      destruct (Marshal w tx) as [b | e] eqn:HM;
        inversion H; subst; eexists; (split; [ reflexivity | apply HQ ]).
    - inversion H; subst. eexists. split; [ reflexivity | ].
      split; [ repeat constructor | ].
      intros tx' key' id' Hin. cbn in Hin.
      destruct Hin as [Hin | [Hin | []]]; discriminate. }
  assert (Q_run : frames Q (0 + 0 + (if transferOnly f then 0 else 0 + 0)) (run w f fuel)).
  { apply frames_run; auto; intros; apply Q_one; reflexivity. }
  intros s r s' H.
  destruct (Q_run s r s' H) as (t & Ht & HF & HR).
  exists t. auto.
Qed.

Lemma dry_run_touches_nothing_witness :
  exists t,
    trace (snd (run (sample 1000000000 500000000 0 [feature15])
                  (flagsOf waves 0 false true) 0 start))
    = (trace start ++ t)%list /\
    Forall (fun e => isSubmission e = false) t /\
    rendered (sample 1000000000 500000000 0 [feature15]) t.
Proof.
  exact (dry_run_touches_nothing (sample 1000000000 500000000 0 [feature15])
           (flagsOf waves 0 false true) 0 eq_refl start _ _ (surjective_pairing _)).
Defined.

(** ** Transfer-only mode *)

(** In transfer-only mode no event is about a lease, and the queries of a
    kind [p] are those of the transfer alone. *)
Lemma run_transfer_only_within w f fuel (p : Event -> bool) nb nf :
  transferOnly f = true ->
  (forall e, isBalanceQuery e = false -> isFeeQuery e = false -> p e = false) ->
  (forall a r, ((if p (BalanceDetails a r) then 1 else 0) <= nb)%nat) ->
  (forall a r, ((if p (ScriptInfo a r) then 1 else 0) <= nf)%nat) ->
  frames (within (fun e => isLeaseEvent e = false) p) (nb + nf) (run w f fuel).
Proof.
  intros Ho Hp HB HF.
  set (Q := within (fun e => isLeaseEvent e = false) p).
  assert (Q_app : forall n1 n2 t1 t2, Q n1 t1 -> Q n2 t2 -> Q (n1 + n2)%nat (t1 ++ t2)%list)
    by (intros; apply within_app; assumption).
  assert (Q_mono : forall n n' t, (n <= n')%nat -> Q n t -> Q n' t)
    by (intros n n' t; apply within_mono).
  assert (Q_one : forall e, isLeaseEvent e = false -> isBalanceQuery e = false ->
                            isFeeQuery e = false -> Q 0%nat [e]).
  { intros e H1 H2 H3. apply within_one; [ exact H1 | ]. rewrite Hp; auto. }
  assert (Q_log : forall line, Q 0%nat [Log line]) by (intros; apply Q_one; reflexivity).
  assert (Q_run : frames Q (nb + nf + (if transferOnly f then 0 else nb + nf)) (run w f fuel)).
  { assert (Q_nil : Q 0%nat []) by apply within_nil.
    apply (frames_run Q Q_nil Q_app Q_mono Q_log).
    - apply Q_one; reflexivity.
    - intros; apply Q_one; reflexivity.
    - intros; apply Q_one; reflexivity.
    - intros; apply Q_one; reflexivity.
    - intros; apply Q_one; reflexivity.
    - intros a r. apply within_one; [ reflexivity | apply HB ].
    - intros a r. apply within_one; [ reflexivity | apply HF ].
    - intros sch t key. apply (frames_deliver Q Q_nil Q_app Q_mono Q_log).
      + intros; apply Q_one; reflexivity.
      + intros _ r; apply Q_one; reflexivity.
      + intros _. repeat split; intros; apply Q_one; reflexivity.
    - rewrite Ho. discriminate. }
  rewrite Ho, Nat.add_0_r in Q_run. exact Q_run.
Qed.

(** C5: in transfer-only mode, once everything up to the end of the transfer
    has gone through, [run] logs OK and returns nil at once; and whatever
    way a transfer-only run ends, its log has no event about a lease
    transaction (none built and signed, rendered or broadcast) and at most
    one balance query and one extra-fee query, those of the transfer. *)
Theorem transfer_only_stops_after_transfer (w : World) (f : Flags) (fuel : nat) :
  transferOnly f = true ->
  (forall s c p a s1,
     throughTransfer w f fuel s = (Next (c, p, a), s1) ->
     run w f fuel s
     = (Return None, {| trace := trace s1 ++ [Log "[INFO] OK"]; calls := calls s1 |})) /\
  (forall s r s',
     run w f fuel s = (r, s') ->
     exists t,
       trace s' = (trace s ++ t)%list /\
       Forall (fun e => isLeaseEvent e = false) t /\
       (count isBalanceQuery t <= 1)%nat /\
       (count isFeeQuery t <= 1)%nat).
Proof.
  intros Ho. split.
  - intros s c p a s1 H. unfold run, bind. rewrite H, Ho. reflexivity.
  - intros s r s' H.
    assert (HbQ : frames (within (fun e => isLeaseEvent e = false) isBalanceQuery)
                    (1 + 0) (run w f fuel)).
    { apply run_transfer_only_within; [ exact Ho | | | ].
      - intros e H1 _. exact H1.
      - intros a r0. cbn. lia.
      - intros a r0. cbn. lia. }
    assert (HfQ : frames (within (fun e => isLeaseEvent e = false) isFeeQuery)
                    (0 + 1) (run w f fuel)).
    { apply run_transfer_only_within; [ exact Ho | | | ].
      - intros e _ H2. exact H2.
      - intros a r0. cbn. lia.
      - intros a r0. cbn. lia. }
    destruct (HbQ s r s' H) as (t & Ht & HF & HB).
    destruct (HfQ s r s' H) as (t' & Ht' & _ & HQ).
    rewrite Ht in Ht'. apply app_inv_head in Ht'. subst t'.
    exists t. cbn in HB, HQ. auto.
Qed.

Lemma transfer_only_stops_after_transfer_witness :
  fst (run (sample 1000000000 0 0 [feature15]) (flagsOf waves 0 true false) 2 start)
  = Return None.
Proof.
  destruct (transfer_only_stops_after_transfer (sample 1000000000 0 0 [feature15])
              (flagsOf waves 0 true false) 2 eq_refl) as (H & _).
  erewrite H; [ reflexivity | vm_compute; reflexivity ].
Defined.

(** ** The version of the transactions *)

Lemma protobufFeature_spec features :
  protobufFeature features = true <->
  exists x, In x features /\ ID x = 15 /\ BlockchainStatus x = "ACTIVATED" /\
            (NodeStatus x = "IMPLEMENTED" \/ NodeStatus x = "VOTED").
Proof.
  induction features as [ | x rest IH]; cbn [protobufFeature].
  - split; [ discriminate | intros (x & [] & _) ].
  - destruct (Z.eqb_spec (ID x) 15) as [Hi | Hi];
      destruct (String.eqb_spec (BlockchainStatus x) "ACTIVATED") as [Hb | Hb];
      destruct (String.eqb_spec (NodeStatus x) "IMPLEMENTED") as [Hn | Hn];
      destruct (String.eqb_spec (NodeStatus x) "VOTED") as [Hv | Hv];
      cbn [andb orb];
      try (split; [ intros _; exists x; cbn; tauto | reflexivity ]);
      (rewrite IH; split;
       [ intros (y & Hy & H); exists y; cbn; tauto
       | intros (y & [<- | Hy] & H1 & H2 & H3);
         [ tauto | exists y; tauto ] ]).
Qed.

Lemma run_split w f fuel s :
  run w f fuel s
  = (pc <- beforeFacts w f ;;
     let (p, cl) := pc in
     c <- chainFacts w cl ;;
     afterFacts w f fuel p c) s.
Proof.
  unfold run, throughTransfer, beforeFacts, afterFacts, bind, ret.
  destruct (checkFlags w f s) as [[[url p] | e | | ] s0]; try reflexivity.
  destruct (connect w url s0) as [[cl | e | | ] s1]; try reflexivity.
  destruct (chainFacts w cl s1) as [[c | e | | ] s2]; try reflexivity.
  destruct (resolveAccounts w f p (scheme c) s2) as [[a | e | | ] s3]; try reflexivity.
  destruct (transferStep w f fuel c a s3) as [[[] | e | | ] s4]; reflexivity.
Qed.

(** Step 2 sends the one activation request of a run, and where it goes on,
    the version it has fixed is the one the answer commands. *)
Lemma chainFacts_version w cl s r s' :
  chainFacts w cl s = (r, s') ->
  exists t,
    trace s' = (trace s ++ t)%list /\
    within (fun e => txOf e = None) isActivation 1 t /\
    forall c, r = Next c ->
      exists features,
        In (ActivationStatus (Ok features)) t /\
        txVer c = versionFor (protobufFeature features).
Proof.
  unfold chainFacts, getScheme, isProtobufActivated, failed, bind, request, log, emit,
    ret, exit.
  cbn [trace calls].
  destruct (BlocksLast w (calls s)) as [g | e]; cbn [trace calls].
  - destruct (NewRequest w "GET" (BaseUrl cl ++ "/activation/status")) as [e | ];
      cbn [trace calls].
    + destruct (isCanceled e); intros H; inversion H; subst; cbn [trace];
        rewrite <- ?app_assoc; (eexists; split; [ reflexivity | ]);
        (split; [ split; [ repeat constructor | cbn; lia ] | discriminate ]).
    + destruct (Do w (S (calls s)) (BaseUrl cl ++ "/activation/status")) as [fs | e];
        cbn [trace calls].
      * intros H; inversion H; subst; cbn [trace].
        rewrite <- ?app_assoc. eexists. split; [ reflexivity | ].
        split; [ split; [ repeat constructor | cbn; lia ] | ].
        intros c Hc. inversion Hc; subst. exists fs. cbn. auto.
      * destruct (isCanceled e); intros H; inversion H; subst; cbn [trace];
          rewrite <- ?app_assoc; (eexists; split; [ reflexivity | ]);
          (split; [ split; [ repeat constructor | cbn; lia ] | discriminate ]).
  - destruct (isCanceled e); intros H; inversion H; subst; cbn [trace];
      rewrite <- ?app_assoc; (eexists; split; [ reflexivity | ]);
      (split; [ split; [ repeat constructor | cbn; lia ] | discriminate ]).
Qed.

Lemma beforeFacts_quiet w f :
  frames (within (fun e => txOf e = None) isActivation) 0 (beforeFacts w f).
Proof.
  set (Q := within (fun e => txOf e = None) isActivation).
  assert (Q_nil : Q 0%nat []) by apply within_nil.
  assert (Q_app : forall n1 n2 t1 t2, Q n1 t1 -> Q n2 t2 -> Q (n1 + n2)%nat (t1 ++ t2)%list)
    by (intros; apply within_app; assumption).
  assert (Q_mono : forall n n' t, (n <= n')%nat -> Q n t -> Q n' t)
    by (intros n n' t; apply within_mono).
  assert (Q_one : forall e, txOf e = None -> isActivation e = false -> Q 0%nat [e]).
  { intros e H1 H2. apply within_one; [ exact H1 | rewrite H2; lia ]. }
  assert (Q_log : forall line, Q 0%nat [Log line]) by (intros; apply Q_one; reflexivity).
  unfold beforeFacts.
  apply (frames_seq Q Q_app Q_mono).
  - apply (frames_checkFlags Q Q_nil Q_app Q_mono Q_log); intros; apply Q_one; reflexivity.
  - intros [url p].
    apply (frames_seq Q Q_app Q_mono).
    + apply (frames_connect Q Q_nil Q_app Q_mono Q_log); intros; apply Q_one; reflexivity.
    + intros cl. apply (frames_ret Q Q_nil).
Qed.

Lemma afterFacts_version w f fuel p c :
  frames (within (fun e => forall tx, txOf e = Some tx -> txVersion tx = txVer c)
                 isActivation) 0 (afterFacts w f fuel p c).
Proof.
  set (Q := within (fun e => forall tx, txOf e = Some tx -> txVersion tx = txVer c)
                   isActivation).
  assert (Q_nil : Q 0%nat []) by apply within_nil.
  assert (Q_app : forall n1 n2 t1 t2, Q n1 t1 -> Q n2 t2 -> Q (n1 + n2)%nat (t1 ++ t2)%list)
    by (intros; apply within_app; assumption).
  assert (Q_mono : forall n n' t, (n <= n')%nat -> Q n t -> Q n' t)
    by (intros n n' t; apply within_mono).
  assert (Q_one : forall e, txOf e = None -> isActivation e = false -> Q 0%nat [e]).
  { intros e H1 H2. apply within_one; [ | rewrite H2; lia ].
    intros tx Htx. rewrite H1 in Htx. discriminate. }
  assert (Q_tx : forall e tx, txOf e = Some tx -> txVersion tx = txVer c ->
                              isActivation e = false -> Q 0%nat [e]).
  { intros e tx H1 Hv H2. apply within_one; [ | rewrite H2; lia ].
    intros tx' Htx. rewrite H1 in Htx. inversion Htx; subst. exact Hv. }
  assert (Q_log : forall line, Q 0%nat [Log line]) by (intros; apply Q_one; reflexivity).
  assert (Q_deliver : forall ph key tx, txVersion tx = txVer c ->
            frames Q 0 (deliver w f fuel ph (scheme c) key tx)).
  { intros ph key tx Hv. apply (frames_deliver Q Q_nil Q_app Q_mono Q_log).
    - intros r. apply (Q_tx _ tx); auto.
    - intros _ r. apply (Q_tx _ tx); auto.
    - intros _. repeat split; intros;
        first [ apply (Q_tx _ tx); auto; fail | apply Q_one; reflexivity ]. }
  unfold afterFacts.
  apply (frames_seq Q Q_app Q_mono);
    [ apply (frames_resolveAccounts Q Q_nil Q_app Q_mono Q_log) | intros a ].
  apply (frames_seq Q Q_app Q_mono).
  - apply (frames_transferStep Q Q_nil Q_app Q_mono Q_log w f fuel c a 0 0).
    + intros; apply Q_one; reflexivity.
    + intros; apply Q_one; reflexivity.
    + intros t key Hv. apply Q_deliver. exact Hv.
  - intros _. destruct (transferOnly f).
    + apply (frames_seq Q Q_app Q_mono);
        [ apply (frames_log Q Q_log) | intros _; apply (frames_exit Q Q_nil) ].
    + apply (frames_leaseStep Q Q_nil Q_app Q_mono Q_log w f fuel c p a 0 0).
      * intros; apply Q_one; reflexivity.
      * intros; apply Q_one; reflexivity.
      * intros l key Hv. apply Q_deliver. exact Hv.
Qed.

(** C7: the version is 3 exactly when the activation response lists a
    feature 15 that is "ACTIVATED" on the blockchain and "IMPLEMENTED" or
    "VOTED" on the node, and 2 otherwise; a run sends at most one
    activation request, and every transaction it signs, renders or
    broadcasts, the transfer and the lease alike, carries the version that
    the answer to that request commands. *)
Theorem version_follows_feature_15 (w : World) (f : Flags) (fuel : nat) :
  (forall features,
     versionFor (protobufFeature features) = 3 <->
     exists x, In x features /\ ID x = 15 /\ BlockchainStatus x = "ACTIVATED" /\
               (NodeStatus x = "IMPLEMENTED" \/ NodeStatus x = "VOTED")) /\
  (forall features,
     versionFor (protobufFeature features) <> 3 ->
     versionFor (protobufFeature features) = 2) /\
  (forall s r s',
     run w f fuel s = (r, s') ->
     exists t,
       trace s' = (trace s ++ t)%list /\
       (count isActivation t <= 1)%nat /\
       forall e tx,
         In e t -> txOf e = Some tx ->
         exists features,
           In (ActivationStatus (Ok features)) t /\
           txVersion tx = versionFor (protobufFeature features)).
Proof.
  split; [ | split ].
  - intros fs. rewrite <- protobufFeature_spec.
    destruct (protobufFeature fs); cbn; split; intros H; (reflexivity || discriminate).
  - intros fs. destruct (protobufFeature fs); cbn; intros H; [ contradiction | reflexivity ].
  - intros s r s' H. rewrite run_split in H. unfold bind in H.
    destruct (beforeFacts w f s) as [r0 s0] eqn:E0.
    destruct (beforeFacts_quiet w f s r0 s0 E0) as (t0 & Ht0 & F0 & C0).
    assert (N0 : forall e tx, In e t0 -> txOf e = Some tx -> False).
    { intros e tx Hin Htx. rewrite Forall_forall in F0.
      rewrite (F0 e Hin) in Htx. discriminate. }
    destruct r0 as [[p cl] | e0 | | ];
      try (inversion H; subst; exists t0;
           split; [ assumption | split; [ lia | intros e tx Hin Htx; destruct (N0 e tx Hin Htx) ] ]).
    destruct (chainFacts w cl s0) as [r1 s1] eqn:E1.
    destruct (chainFacts_version w cl s0 r1 s1 E1) as (t1 & Ht1 & [F1 C1] & V1).
    assert (N1 : forall e tx, In e t1 -> txOf e = Some tx -> False).
    { intros e tx Hin Htx. rewrite Forall_forall in F1.
      rewrite (F1 e Hin) in Htx. discriminate. }
    destruct r1 as [c | e1 | | ];
      try (inversion H; subst; exists (t0 ++ t1)%list;
           split; [ rewrite Ht1, Ht0, app_assoc; reflexivity | ];
           split; [ rewrite count_app; lia | ];
           intros e tx Hin Htx; apply in_app_iff in Hin;
           destruct Hin as [Hin | Hin];
           [ destruct (N0 e tx Hin Htx) | destruct (N1 e tx Hin Htx) ]).
    destruct (afterFacts_version w f fuel p c s1 r s' H) as (t2 & Ht2 & F2 & C2).
    destruct (V1 c eq_refl) as (fs & Hfs & Hv).
    exists (t0 ++ t1 ++ t2)%list.
    split; [ rewrite Ht2, Ht1, Ht0, <- !app_assoc; reflexivity | ].
    split; [ rewrite !count_app; lia | ].
    intros e tx Hin Htx. rewrite !in_app_iff in Hin.
    destruct Hin as [Hin | [Hin | Hin]].
    + destruct (N0 e tx Hin Htx).
    + destruct (N1 e tx Hin Htx).
    + exists fs. split; [ rewrite !in_app_iff; auto | ].
      rewrite Forall_forall in F2. rewrite (F2 e Hin tx Htx). exact Hv.
Qed.

Lemma version_follows_feature_15_witness :
  versionFor (protobufFeature [feature15]) = 3 /\
  exists t,
    trace (snd (run (sample 1000000000 500000000 0 [feature15])
                  (flagsOf waves 0 false false) 4 start))
    = (trace start ++ t)%list /\
    (count isActivation t <= 1)%nat.
Proof.
  destruct (version_follows_feature_15 (sample 1000000000 500000000 0 [feature15])
              (flagsOf waves 0 false false) 4) as (H1 & _ & H3).
  split.
  - apply H1. exists feature15. cbn. auto.
  - destruct (H3 start _ _ (surjective_pairing _)) as (t & Ht & Hc & _).
    exists t. split; [ exact Ht | exact Hc ].
Defined.

(** ** The leasing threshold *)

Lemma amountPhase_through w f ph who s raw balance extra amount fee :
  AddressesBalanceDetails w (calls s) (addr who) = Ok raw ->
  availableBalance (irreducibleBalance f) (testRun f) raw = Some balance ->
  AddressesScriptInfo w (S (calls s)) (addr who) = Ok extra ->
  amountAndFee balance extra = Some (amount, fee) ->
  amountPhase w f ph who s
  = (Next (amount, fee),
     {| trace := trace s ++ amountLog ph (addr who) raw extra;
        calls := S (S (calls s)) |}).
Proof.
  intros HB HA HF HAF.
  unfold amountPhase, getAvailableWavesBalance, getExtraFee, bind, request, log, emit, ret.
  cbn [trace calls].
  rewrite HB, HA. cbn [trace calls]. rewrite HF, HAF. cbn [trace calls].
  unfold amountLog. rewrite <- !app_assoc. reflexivity.
Qed.

(** [deliver] always asks for the signature first; once it has it, it
    renders the transaction in a dry run and otherwise broadcasts it. *)
Lemma deliver_signs w f fuel ph sch key tx s :
  exists r s' rest,
    deliver w f fuel ph sch key tx s = (r, s') /\
    trace s' = (trace s ++ Signed tx key (Sign w sch key tx) :: rest)%list /\
    forall id, Sign w sch key tx = Ok id ->
      if dryRun f
      then exists rest', rest = Rendered tx (Marshal w tx) :: rest'
      else exists rest',
          rest = Log (text ph "[INFO] Transfer transaction ID: %s"
                              "[INFO] Lease transaction ID: %s")
                 :: Broadcast tx (TransactionsBroadcast w (calls s) tx) :: rest'.
Proof.
  destruct (dryRun f) eqn:Hd.
  - rewrite deliver_dry_run by assumption.
    destruct (Sign w sch key tx) as [id | e].
    + destruct (Marshal w tx) as [b | e];
        do 3 eexists; (split; [ reflexivity | ]);
        (split; [ reflexivity | intros; eexists; reflexivity ]).
    + do 3 eexists. split; [ reflexivity | ].
      split; [ reflexivity | discriminate ].
  - unfold deliver, lib, failed, broadcast, bind, request, log, emit, exit, ret.
    rewrite Hd. cbn [trace calls].
    destruct (Sign w sch key tx) as [id | e]; cbn [trace calls].
    + destruct (TransactionsBroadcast w (calls s) tx) as [e | ]; cbn [trace calls].
      * destruct (isCanceled e); cbn [trace calls];
          do 3 eexists; (split; [ reflexivity | ]); cbn [trace];
          rewrite <- !app_assoc; cbn [app];
          (split; [ reflexivity | intros; eexists; reflexivity ]).
      * match goal with
        | |- context [track w fuel id ?s0] =>
            destruct (track w fuel id s0) as [r3 s4] eqn:Et
        end.
        destruct (track_extends _ _ _ _ _ _ Et) as [t Ht]. cbn [trace] in Ht.
        destruct r3 as [[e | ] | e | | ]; [ destruct (isCanceled e) | | | | ];
          cbn [trace calls];
          do 3 eexists; (split; [ reflexivity | ]); cbn [trace];
          rewrite Ht, <- !app_assoc; cbn [app];
          (split; [ reflexivity | intros; eexists; reflexivity ]).
    + do 3 eexists. split; [ reflexivity | ]. cbn [trace].
      rewrite <- !app_assoc. cbn [app].
      split; [ reflexivity | discriminate ].
Qed.

(** C4: with the lease amount computed, a threshold above it makes [run]
    log the skip and return nil with nothing built or signed; a threshold
    at or below it, or none at all, makes it build the lease of that amount
    and ask for its signature, after which the lease is broadcast (rendered
    in a dry run). *)
Theorem leasing_threshold_gate (w : World) (f : Flags) (fuel : nat) (c : Chain)
    (p : Params) (a : Accounts) (s : State) (raw balance extra amount fee : Z) :
  Int.is_int64 (leasingThreshold f) ->
  AddressesBalanceDetails w (calls s) (addr (lessor a)) = Ok raw ->
  availableBalance (irreducibleBalance f) (testRun f) raw = Some balance ->
  AddressesScriptInfo w (S (calls s)) (addr (lessor a)) = Ok extra ->
  amountAndFee balance extra = Some (amount, fee) ->
  let t := leasingThreshold f in
  let asked := amountLog LeasePhase (addr (lessor a)) raw extra in
  let lease := LeaseTx {| lVersion := txVer c; lSenderPK := pk (lessor a);
                          lRecipient := recipient (leasingRecipient a);
                          lAmount := amount; lFee := fee;
                          lTimestamp := Int.uint64 (UnixNano w (S (S (calls s)))) / 1000000 |} in
  (0 < t -> amount < t ->
     leaseStep w f fuel c p a s
     = (Return None,
        {| trace := trace s ++ asked ++
             [Log "[INFO] Leasing amount %d is less than threshold %d"];
           calls := S (S (calls s)) |})) /\
  (t <= 0 \/ t <= amount ->
     exists r s' rest,
       leaseStep w f fuel c p a s = (r, s') /\
       trace s' = (trace s ++ asked ++
                   Signed lease (lSK p) (Sign w (scheme c) (lSK p) lease) :: rest)%list /\
       forall id, Sign w (scheme c) (lSK p) lease = Ok id ->
         if dryRun f
         then exists rest', rest = Rendered lease (Marshal w lease) :: rest'
         else exists rest',
             rest = Log "[INFO] Lease transaction ID: %s"
                    :: Broadcast lease (TransactionsBroadcast w (S (S (calls s))) lease)
                    :: rest').
Proof.
  intros Ht HB HA HF HAF t asked lease.
  assert (Hstep : forall k : Z * Z -> M unit,
            bind (amountPhase w f LeasePhase (lessor a)) k s
            = k (amount, fee) {| trace := trace s ++ asked; calls := S (S (calls s)) |}).
  { intros k. unfold bind.
    rewrite (amountPhase_through w f LeasePhase (lessor a) s raw balance extra amount fee)
      by assumption.
    reflexivity. }
  unfold Int.is_int64 in Ht. fold t in Ht.
  split.
  - intros Hpos Hlt. unfold leaseStep. rewrite Hstep. fold t.
    unfold when, bind, log, emit, exit. cbn [trace calls].
    destruct (Z.ltb_spec 0 t); [ | lia ].
    rewrite uint64_small by (unfold Int.is_uint64; lia).
    destruct (Z.ltb_spec amount t); [ | lia ].
    cbn [trace calls]. rewrite <- app_assoc. reflexivity.
  - intros Hge. unfold leaseStep. rewrite Hstep. fold t.
    assert (Hgate : when (0 <? t)
                      (when (amount <? Int.uint64 t)
                         (log "[INFO] Leasing amount %d is less than threshold %d" ;;
                          exit None))
                    = ret tt).
    { unfold when. destruct (Z.ltb_spec 0 t); [ | reflexivity ].
      rewrite uint64_small by (unfold Int.is_uint64; lia).
      destruct (Z.ltb_spec amount t); [ lia | reflexivity ]. }
    rewrite Hgate. unfold bind at 1. unfold ret at 1.
    unfold bind at 1. unfold timestamp at 1. cbn [trace calls]. fold lease.
    unfold bind at 1.
    destruct (deliver_signs w f fuel LeasePhase (scheme c) (lSK p) lease
                {| trace := trace s ++ asked; calls := S (S (calls s)) |})
      as (r & s1 & rest & Hd & Htr & Hnext).
    rewrite Hd. cbn [trace calls] in Htr, Hnext.
    destruct r as [[] | e | | ].
    + unfold bind, log, emit, exit. cbn [trace calls].
      do 2 eexists. exists (rest ++ [Log "[INFO] OK"])%list.
      split; [ reflexivity | ]. cbn [trace].
      split; [ rewrite Htr, <- !app_assoc; reflexivity | ].
      intros id Hid. specialize (Hnext id Hid).
      destruct (dryRun f); destruct Hnext as [rest' ->]; eexists; reflexivity.
    + do 2 eexists. exists rest. split; [ reflexivity | ].
      split; [ rewrite Htr, <- !app_assoc; reflexivity | exact Hnext ].
    + do 2 eexists. exists rest. split; [ reflexivity | ].
      split; [ rewrite Htr, <- !app_assoc; reflexivity | exact Hnext ].
    + do 2 eexists. exists rest. split; [ reflexivity | ].
      split; [ rewrite Htr, <- !app_assoc; reflexivity | exact Hnext ].
Qed.

Lemma leasing_threshold_gate_witness :
  let a := {| sk := "LessorKey"; pk := "pk-LessorKey"; addr := "3P-pk-LessorKey" |} in
  let g := {| sk := "GeneratorKey"; pk := "pk-GeneratorKey"; addr := "3P-pk-GeneratorKey" |} in
  leaseStep (sample 0 50099999 0 []) (flagsOf 0 50000000 false false) 1
    {| scheme := 87; txVer := 2 |}
    {| gSK := "GeneratorKey"; lSK := "LessorKey"; differentLessorPK := None;
       leasingAddr := None; transferRecipientAddress := "" |}
    {| generator := g; transferRecipient := a; lessor := a; leasingRecipient := g |}
    start
  = (Return None,
     {| trace := trace start ++ amountLog LeasePhase "3P-pk-LessorKey" 50099999 0 ++
                 [Log "[INFO] Leasing amount %d is less than threshold %d"];
        calls := 2 |}).
Proof.
  intros a g.
  assert (Ht : Int.is_int64 (leasingThreshold (flagsOf 0 50000000 false false)))
    by (unfold Int.is_int64; cbn; lia).
  refine (proj1 (leasing_threshold_gate (sample 0 50099999 0 [])
                   (flagsOf 0 50000000 false false) 1 _ _
                   {| generator := g; transferRecipient := a; lessor := a;
                      leasingRecipient := g |}
                   start 50099999 50099999 0 49999999 100000
                   Ht eq_refl eq_refl eq_refl eq_refl) _ _); cbn; lia.
Defined.

(** ** The flags *)

(** Whatever the world, an override public key that does not decode ends the
    run with [errFailure], before any request. *)
Lemma undecodable_override_key w f fuel g l e :
  showHelp f = false -> showVersion f = false ->
  String.eqb (nodeURL f) "" = false ->
  String.eqb (generatorSK f) "" = false ->
  NewSecretKeyFromBase58 w (generatorSK f) = Ok g ->
  transferOnly f = false ->
  String.eqb (lessorSK f) "" = false ->
  NewSecretKeyFromBase58 w (lessorSK f) = Ok l ->
  String.eqb (lessorPK f) "" = false ->
  NewPublicKeyFromBase58 w (lessorPK f) = Err e ->
  exists before,
    run w f fuel start
    = (Return (Some errFailure),
       {| trace := before ++
            [Log "[ERROR] Failed to parse additional lessor public key'%s': %v"];
          calls := 0 |}) /\
    (before = [] \/ before = [Log "[ERROR] Invalid node's URL '%s': %v"]).
Proof.
  intros Hh Hv Hu Hg HG Ho Hl HL Hp HP.
  unfold run, throughTransfer, checkFlags, decodeKeys, when, bind, log, emit, exit, ret, start.
  rewrite Hh, Hv, Hu. cbn [trace calls app].
  destruct (normalizeURL w (nodeURL f)) as [u [err | ]]; cbn [trace calls app];
    rewrite Hg, HG, Ho; cbn [trace calls app];
    rewrite Hl, HL, Hp, HP; cbn [trace calls app].
  - exists [Log "[ERROR] Invalid node's URL '%s': %v"]. split; [ reflexivity | auto ].
  - exists []. split; [ reflexivity | auto ].
Qed.

(** C9, at flags the claim covers.  An override public key that does not
    decode, and an override leasing address that does not decode, end the
    process with status 70 (operation failure), not 2, while the recipient
    address of the transfer-only mode, checked by the same calls, ends it
    with status 2; a node URL with an unsupported scheme is logged as
    invalid and nothing more: the run goes on with an empty URL, sends the
    height request and ends with status 70 when the node does not answer. *)
Theorem malformed_flags_miss_invalid_parameters :
  let w := sample 1000000000 500000000 0 [feature15] in
  NewPublicKeyFromBase58 w "0OIl" = Err (otherError "invalid base58") /\
  main w (flagsWith "http://localhost:6869" "0OIl" "") 1
  = (Some 70, [Log "[ERROR] Failed to parse additional lessor public key'%s': %v"]) /\
  main w (flagsWith "http://localhost:6869" "" "0OIl") 1
  = (Some 70, [Log "[INFO] No different lessor public key is given";
               Log "[ERROR] Invalid leasing address '%s': %v"]) /\
  main w {| nodeURL := "http://localhost:6869"; generatorSK := "GeneratorKey";
            lessorSK := ""; lessorPK := ""; leasingAddress := "";
            irreducibleBalance := 0; leasingThreshold := 0;
            transferOnly := true; recipientAddress := "0OIl";
            dryRun := false; testRun := false;
            showHelp := false; showVersion := false |} 1
  = (Some 2, [Log "[INFO] Transfer only mode activated";
              Log "[ERROR] Invalid transfer recipient address '%s': %v";
              Usage]) /\
  normalizeURL w "ftp://localhost:6869"
  = ("", Some (otherError "unsupported URL scheme '%s'")) /\
  main (unreachable w) (flagsWith "ftp://localhost:6869" "" "") 1
  = (Some 70, [Log "[ERROR] Invalid node's URL '%s': %v";
               Log "[INFO] No different lessor public key is given";
               Log "[INFO] No different leasing address is given";
               Height (Err (otherError "connection refused"));
               Log "[ERROR] Failed to connect to node at '%s': %v"]).
Proof.
  cbv zeta. repeat split; vm_compute; reflexivity.
Qed.

(** ** The scenarios of the specification, run on the model *)

Example scenario_reserved_balance :
  spendableAmount 100000000 false 150000000 0 = inr (49900000, 100000).
Proof. reflexivity. Qed.

Example scenario_balance_equals_fee :
  spendableAmount 0 false 100000 0 = inl NotEnoughBalance.
Proof. reflexivity. Qed.

Example scenario_test_run_cap :
  spendableAmount 0 true 500000000 0 = inr (99900000, 100000).
Proof. reflexivity. Qed.

Example scenario_extra_fee_equals_remainder :
  spendableAmount 0 false 100001 1 = inl NonPositiveAmount.
Proof. reflexivity. Qed.

(** A lease amount equal to the threshold is leased. *)
Example scenario_amount_at_threshold :
  exists l,
    In (Broadcast (LeaseTx l) None)
       (trace (snd (run (sample 1000000000 50100000 0 [])
                      (flagsOf 0 50000000 false false) 4 start)))
    /\ lAmount l = 50000000 /\ lVersion l = 2.
Proof.
  eexists. split.
  - vm_compute. do 31 right. left. reflexivity.
  - split; reflexivity.
Qed.

(** A lease amount just below the threshold ends the run with nil and no
    lease. *)
Example scenario_amount_below_threshold :
  fst (run (sample 1000000000 50099999 0 []) (flagsOf 0 50000000 false false) 4 start)
  = Return None /\
  forallb (fun e => negb (isLeaseEvent e))
    (trace (snd (run (sample 1000000000 50099999 0 [])
                   (flagsOf 0 50000000 false false) 4 start))) = true.
Proof. split; vm_compute; reflexivity. Qed.

(** * Further properties of the code *)

(** ** Amount and fee *)

Lemma uint64_add_sub a b : Int.uint64 (Int.uint64 (a - b) + b) = Int.uint64 a.
Proof.
  unfold Int.uint64. rewrite Z.add_mod_idemp_l by lia. f_equal. lia.
Qed.

(** X1: whenever a pass yields an amount and a fee, both are [uint64]
    values, the amount is positive, and amount plus fee is the working
    balance modulo 2^64; it is the working balance itself, with the fee
    [standardFee + extraFee], whenever that fee does not exceed the
    balance. *)
Theorem amount_and_fee_make_up_balance (balance extra amount fee : Z) :
  Int.is_uint64 balance ->
  amountAndFee balance extra = Some (amount, fee) ->
  Int.is_uint64 amount /\ Int.is_uint64 fee /\ 0 < amount /\
  Int.uint64 (amount + fee) = balance /\
  (0 <= extra -> standardFee + extra <= balance ->
   fee = standardFee + extra /\ amount + fee = balance).
Proof.
  intros Hb H. unfold amountAndFee in H. cbv zeta in H.
  destruct (Z.leb_spec (amountOf balance (feeOf extra)) 0) as [ | Hpos]; [ discriminate | ].
  inversion H; subst; clear H.
  split; [ apply uint64_range | ]. split; [ apply uint64_range | ].
  split; [ exact Hpos | ].
  split.
  - unfold amountOf. rewrite uint64_add_sub. apply uint64_small. exact Hb.
  - intros He Hle.
    assert (Hs : 0 <= standardFee) by (unfold standardFee; lia).
    assert (Hf : feeOf extra = standardFee + extra).
    { unfold feeOf. apply uint64_small. unfold Int.is_uint64 in *. lia. }
    split; [ exact Hf | ].
    unfold amountOf in *. rewrite Hf in *.
    rewrite uint64_small; [ lia | unfold Int.is_uint64 in *; lia ].
Qed.

Lemma amount_and_fee_make_up_balance_witness :
  Int.uint64 (999900000 + 100000) = 1000000000 /\ 0 < 999900000.
Proof.
  assert (Hb : Int.is_uint64 1000000000) by (unfold Int.is_uint64; lia).
  destruct (amount_and_fee_make_up_balance 1000000000 0 999900000 100000 Hb eq_refl)
    as (_ & _ & Hp & Hs & _).
  split; [ exact Hs | exact Hp ].
Defined.

(** X2: for an account without a script (extra fee 0) the second check never
    fires: a pass either ends at "Not enough balance" or yields the fee
    [standardFee] and a positive amount; amount, fee and reservation never
    add up to more than the raw balance, and outside a test run they add up
    to exactly the raw balance. *)
Theorem unscripted_account_spends_within_balance (raw irr : Z) (test : bool) :
  Int.is_uint64 raw -> Int.is_int64 irr -> 0 <= irr ->
  spendableAmount irr test raw 0 <> inl NonPositiveAmount /\
  forall amount fee,
    spendableAmount irr test raw 0 = inr (amount, fee) ->
    fee = standardFee /\ 0 < amount /\
    amount + fee + irr <= raw /\
    (test = false -> amount + fee + irr = raw).
Proof.
  intros Hr Hi Hn.
  assert (Hc := reserveIrreducible_closed irr raw Hr Hi).
  assert (Hw : standardFee < waves) by (unfold standardFee, waves; lia).
  assert (Hs : 0 <= standardFee) by (unfold standardFee; lia).
  unfold spendableAmount, availableBalance. cbv zeta.
  set (b := reserveIrreducible irr raw) in *.
  destruct (Z.leb_spec b standardFee) as [ | Hgt].
  { split; [ discriminate | intros amount fee Hx; discriminate ]. }
  assert (Hb : b = raw - irr /\ b < 2 ^ 64).
  { unfold Int.is_uint64, Int.is_int64 in *. rewrite Hc in *.
    destruct (Z.ltb_spec 0 irr).
    - destruct (Z.ltb_spec 0 (raw - irr)); cbn [andb] in *; [ | lia ].
      destruct (Z.ltb_spec (raw - irr) (2 ^ 63)); lia.
    - lia. }
  destruct Hb as [Hb Hb64].
  assert (Hl : standardFee < limitTestRun test b <= b /\
               (test = false -> limitTestRun test b = b)).
  { unfold limitTestRun. destruct (Z.ltb_spec waves b); destruct test; cbn [andb];
      split; try lia; auto; discriminate. }
  destruct Hl as [Hl Hl'].
  rewrite amountAndFee_exact by (unfold Int.is_uint64; lia).
  split; [ discriminate | ].
  intros amount fee H. inversion H; subst amount fee; clear H.
  split; [ lia | ]. split; [ lia | ]. split; [ lia | ].
  intros Ht. rewrite (Hl' Ht). lia.
Qed.

Lemma unscripted_account_spends_within_balance_witness :
  49900000 + 100000 + 100000000 = 150000000.
Proof.
  assert (Hr : Int.is_uint64 150000000) by (unfold Int.is_uint64; lia).
  assert (Hi : Int.is_int64 100000000) by (unfold Int.is_int64; lia).
  assert (Hn : 0 <= 100000000) by lia.
  destruct (unscripted_account_spends_within_balance 150000000 100000000 false Hr Hi Hn)
    as (_ & H).
  destruct (H 49900000 100000 eq_refl) as (_ & _ & _ & He).
  exact (He eq_refl).
Defined.

(** X3: in a test run the balance a pass works with, if any, is above
    [standardFee] and at most one WAVES, and is either the cap or the
    reserved balance; applying the cap twice changes nothing; and when the
    fee stays below that balance, amount plus fee is at most one WAVES. *)
Theorem test_run_caps_the_balance (irr raw b : Z) :
  availableBalance irr true raw = Some b ->
  standardFee < b <= waves /\
  (b = waves \/ b = reserveIrreducible irr raw) /\
  (forall test x, limitTestRun test (limitTestRun test x) = limitTestRun test x) /\
  (forall extra amount fee,
     0 <= extra -> standardFee + extra < b ->
     amountAndFee b extra = Some (amount, fee) ->
     amount + fee = b /\ amount + fee <= waves).
Proof.
  intros H. unfold availableBalance in H. cbv zeta in H.
  assert (Hw : standardFee < waves) by (unfold standardFee, waves; lia).
  destruct (Z.leb_spec (reserveIrreducible irr raw) standardFee) as [ | Hgt];
    [ discriminate | ].
  injection H as Hb.
  assert (Hrange : standardFee < b <= waves /\ (b = waves \/ b = reserveIrreducible irr raw)).
  { rewrite <- Hb. unfold limitTestRun.
    destruct (Z.ltb_spec waves (reserveIrreducible irr raw)); cbn [andb]; lia. }
  destruct Hrange as [Hrange Hor].
  split; [ exact Hrange | ]. split; [ exact Hor | ].
  split.
  - intros test x. unfold limitTestRun.
    destruct test; rewrite ?andb_true_r, ?andb_false_r; [ | reflexivity ].
    destruct (Z.ltb_spec waves x) as [Hx | Hx].
    + destruct (Z.ltb_spec waves waves); [ lia | reflexivity ].
    + destruct (Z.ltb_spec waves x); [ lia | reflexivity ].
  - intros extra amount fee He Hlt Haf.
    assert (Hu : Int.is_uint64 b).
    { unfold Int.is_uint64. assert (waves < 2 ^ 64) by (unfold waves; lia).
      assert (0 <= standardFee) by (unfold standardFee; lia). lia. }
    rewrite (amountAndFee_exact b extra Hu He Hlt) in Haf.
    assert (Ha : amount = b - standardFee - extra) by congruence.
    assert (Hf : fee = standardFee + extra) by congruence.
    lia.
Qed.

Lemma test_run_caps_the_balance_witness :
  standardFee < 100000000 <= waves.
Proof.
  exact (proj1 (test_run_caps_the_balance 0 500000000 100000000 eq_refl)).
Defined.

(** X4: [timestamp] is the clock in whole milliseconds, rounded down, for
    any clock reading from 1970 on, and it leaves the log alone. *)
Theorem timestamp_is_milliseconds (w : World) (s : State) :
  0 <= UnixNano w (calls s) < 2 ^ 63 ->
  exists t,
    timestamp w s = (Next t, s) /\
    t * 1000000 <= UnixNano w (calls s) < (t + 1) * 1000000.
Proof.
  intros Hn. unfold timestamp. eexists. split; [ reflexivity | ].
  rewrite uint64_small by (unfold Int.is_uint64; lia).
  pose proof (Z.div_mod (UnixNano w (calls s)) 1000000 ltac:(lia)) as Hd.
  pose proof (Z.mod_pos_bound (UnixNano w (calls s)) 1000000 ltac:(lia)) as Hm.
  lia.
Qed.

Lemma timestamp_is_milliseconds_witness :
  exists t,
    timestamp (sample 0 0 0 []) start = (Next t, start) /\
    t * 1000000 <= 1700000000000000000 < (t + 1) * 1000000.
Proof.
  apply (timestamp_is_milliseconds (sample 0 0 0 []) start). cbn. lia.
Defined.

(** ** The node's URL *)

(** X5: [normalizeURL] hands back either an error with the empty string, or
    no error with the rendering of a URL whose scheme is "http" or "https":
    the parsed scheme if it is one of the two, "http" if the parsed URL has
    no scheme; a string without "//" is parsed with "//" put before it. *)
Theorem normalizeURL_accepts_http_only (w : World) (s u : string) (err : option error) :
  normalizeURL w s = (u, err) ->
  match err with
  | Some _ => u = ""
  | None =>
      exists parsed,
        urlParse w (if Contains s "//" then s else "//" ++ s) = Ok parsed /\
        (Scheme parsed = "" \/ Scheme parsed = "http" \/ Scheme parsed = "https") /\
        u = urlString w (if String.eqb (Scheme parsed) ""
                         then withScheme parsed "http" else parsed)
  end.
Proof.
  unfold normalizeURL. cbv zeta.
  assert (Hs : (if negb (Contains s "//") then "//" ++ s else s)
               = (if Contains s "//" then s else "//" ++ s))
    by (destruct (Contains s "//"); reflexivity).
  rewrite Hs. clear Hs.
  destruct (urlParse w (if Contains s "//" then s else "//" ++ s)) as [parsed | e].
  - destruct (String.eqb_spec (Scheme parsed) "") as [H0 | H0].
    + cbn. intros H. inversion H; subst. exists parsed.
      rewrite H0 at 4. cbn. auto.
    + assert (E0 : String.eqb (Scheme parsed) "" = false) by (apply String.eqb_neq; exact H0).
      destruct (String.eqb_spec (Scheme parsed) "http") as [H1 | H1].
      * cbn [negb andb]. intros H. inversion H; subst. exists parsed.
        rewrite E0. auto.
      * destruct (String.eqb_spec (Scheme parsed) "https") as [H2 | H2];
          cbn [negb andb]; intros H; inversion H; subst.
        -- exists parsed. rewrite E0. auto.
        -- reflexivity.
  - intros H. inversion H; subst. reflexivity.
Qed.

Lemma normalizeURL_accepts_http_only_witness :
  exists parsed,
    urlParse (sample 0 0 0 []) "//localhost:6869" = Ok parsed /\
    (Scheme parsed = "" \/ Scheme parsed = "http" \/ Scheme parsed = "https").
Proof.
  destruct (normalizeURL_accepts_http_only (sample 0 0 0 []) "localhost:6869"
              "http://localhost:6869" None eq_refl) as (parsed & Hp & Hs & _).
  exists parsed. split; [ exact Hp | exact Hs ].
Defined.

(** X6: [nodeClient] decides on a string as [normalizeURL] does: where
    [normalizeURL] reports an error, [nodeClient] hands back that error
    without building a client or sending a request; where it yields a URL,
    [nodeClient] builds the client for that URL and sends exactly one
    request, for the height, whose failure it hands back. *)
Theorem nodeClient_follows_normalizeURL (w : World) (s : string) (st : State) :
  match normalizeURL w s with
  | (_, Some e) => nodeClient w s st = (Next (Err e), st)
  | (u, None) =>
      match NewClient w u with
      | Err e => nodeClient w s st = (Next (Err e), st)
      | Ok cl =>
          nodeClient w s st
          = (Next (match BlocksHeight w (calls st) with
                   | Err e => Err e
                   | Ok _ => Ok cl
                   end),
             {| trace := trace st ++ [Height (BlocksHeight w (calls st))];
                calls := S (calls st) |})
      end
  end.
Proof.
  unfold normalizeURL, nodeClient. cbv zeta.
  destruct (Contains s "//"); cbn [negb];
    match goal with
    | |- context [urlParse w ?x] => destruct (urlParse w x) as [parsed | e]
    end;
    try reflexivity;
    (destruct (negb (String.eqb
                       (Scheme (if String.eqb (Scheme parsed) ""
                                then withScheme parsed defaultScheme else parsed)) "http")
               && negb (String.eqb
                          (Scheme (if String.eqb (Scheme parsed) ""
                                   then withScheme parsed defaultScheme else parsed)) "https"));
     [ reflexivity | ]);
    (destruct (NewClient w _) as [cl | e]; [ | reflexivity ]);
    unfold bind, request, ret; cbn [trace calls];
    destruct (BlocksHeight w (calls st)); reflexivity.
Qed.

(** ** How a run ends *)

Section Ends.

Variable Q : list Event -> Outcome -> Prop.
Hypothesis Q_nil : Q [] Goes.
Hypothesis Q_seq : forall t1 t2 o, Q t1 Goes -> Q t2 o -> Q (t1 ++ t2)%list o.
Hypothesis Q_log : forall line, Q [Log line] Goes.

Lemma ends_ret A (a : A) : ends Q (ret a).
Proof.
  intros s r s' H. inversion H; subst. exists []. rewrite app_nil_r. auto.
Qed.

Lemma ends_timestamp w : ends Q (timestamp w).
Proof.
  intros s r s' H. inversion H; subst. exists []. rewrite app_nil_r. auto.
Qed.

Lemma ends_exit A err : Q [] (Returns err) -> ends Q (@exit A err).
Proof.
  intros He s r s' H. inversion H; subst. exists []. rewrite app_nil_r. auto.
Qed.

Lemma ends_emit e : Q [e] Goes -> ends Q (emit e).
Proof.
  intros He s r s' H. inversion H; subst. exists [e]. auto.
Qed.

Lemma ends_log line : ends Q (log line).
Proof. apply ends_emit, Q_log. Qed.

Lemma ends_bind A B (m : M A) (k : A -> M B) :
  ends Q m -> (forall a, ends Q (k a)) -> ends Q (bind m k).
Proof.
  intros Hm Hk s r s' H. unfold bind in H.
  destruct (m s) as [r1 s1] eqn:E1.
  destruct (Hm s r1 s1 E1) as (t1 & Ht1 & HQ1).
  destruct r1 as [a | err | | ].
  - destruct (Hk a s1 r s' H) as (t2 & Ht2 & HQ2).
    exists (t1 ++ t2)%list. rewrite Ht2, Ht1, app_assoc. auto.
  - inversion H; subst. exists t1. auto.
  - inversion H; subst. exists t1. auto.
  - inversion H; subst. exists t1. auto.
Qed.

Lemma ends_when c (m : M unit) : ends Q m -> ends Q (when c m).
Proof. intros Hm. destruct c; [ exact Hm | apply ends_ret ]. Qed.

Lemma ends_log_exit A line err : Q [] (Returns err) -> ends Q (log line ;; @exit A err).
Proof.
  intros He. apply ends_bind; [ apply ends_log | intros _; apply ends_exit, He ].
Qed.

Hypothesis Q_failure : Q [] (Returns (Some errFailure)).

Ltac finish :=
  repeat first
    [ apply ends_ret | apply ends_log | apply ends_log_exit; assumption
    | apply ends_exit; assumption | apply ends_when
    | apply ends_bind; [ | intros ? ]
    | match goal with
      | |- ends _ (match ?x with _ => _ end) => destruct x
      | |- ends _ (let (_, _) := ?x in _) => destruct x
      end ].

Lemma ends_resolveAccounts w f p sch : ends Q (resolveAccounts w f p sch).
Proof. unfold resolveAccounts. finish. Qed.

Lemma ends_checkFlags w f :
  Q [Usage] Goes -> (forall line, Q [Stdout line] Goes) ->
  Q [] (Returns None) -> Q [] (Returns (Some errInvalidParameters)) ->
  ends Q (checkFlags w f).
Proof.
  intros HU HO HN HI. unfold checkFlags, decodeKeys.
  finish; apply ends_emit; auto.
Qed.

End Ends.

Lemma verdict_goes t : verdict t Goes -> Forall (fun e => canceledReply e = false /\ failedReply e = false) t.
Proof.
  induction t as [ | e t IH]; cbn [verdict]; intros H; [ constructor | ].
  destruct (canceledReply e) eqn:Ec; [ destruct H; discriminate | ].
  destruct (failedReply e) eqn:Ef; [ destruct H; discriminate | ].
  constructor; auto.
Qed.

Lemma verdict_after t1 t2 o :
  Forall (fun e => canceledReply e = false /\ failedReply e = false) t1 ->
  verdict t2 o -> verdict (t1 ++ t2) o.
Proof.
  induction 1 as [ | e t1 [Hc Hf] _ IH]; intros H2; cbn [app verdict]; [ exact H2 | ].
  rewrite Hc, Hf. auto.
Qed.

Lemma verdict_quiet t o : Forall (fun e => isQuiet e = true) t -> verdict t o.
Proof.
  intros H. rewrite <- (app_nil_r t). apply verdict_after; [ | exact I ].
  eapply Forall_impl; [ | exact H ].
  intros e He. destruct e; try discriminate; auto.
Qed.

Lemma strict_nil : strict [] Goes.
Proof. split; exact I. Qed.

Lemma strict_seq t1 t2 o : strict t1 Goes -> strict t2 o -> strict (t1 ++ t2) o.
Proof.
  intros [_ H1] [F2 H2]. split; [ exact F2 | ].
  apply verdict_after; [ apply verdict_goes; exact H1 | exact H2 ].
Qed.

Lemma strict_log line : strict [Log line] Goes.
Proof. split; exact I. Qed.

Lemma strict_quiet t o :
  failure o -> Forall (fun e => canceledReply e = false /\ failedReply e = false) t ->
  strict t o.
Proof.
  intros Hf Hn. split; [ exact Hf | ].
  rewrite <- (app_nil_r t). apply verdict_after; [ exact Hn | exact I ].
Qed.

(** Closes a leaf of a piece run by hand: the log is read off, and the
    verdict computed with what is known of the errors. *)
Ltac leaf H :=
  inversion H; subst; clear H; cbn [trace outcome];
  rewrite <- ?app_assoc;
  eexists; (split; [ first [ reflexivity | symmetry; apply app_nil_r ] | ]);
  (split; [ cbn; auto | ]);
  cbn;
  repeat match goal with
         | E : isCanceled _ = _ |- _ => rewrite E; clear E
         end;
  cbn; eauto.

Ltac crack H :=
  repeat (match type of H with
          | context [match ?x with _ => _ end] =>
              lazymatch x with
              | context [match _ with _ => _ end] => fail
              | _ => destruct x eqn:?
              end
          end; cbn [trace calls] in H).

Lemma connect_strict w url : ends strict (connect w url).
Proof.
  intros s r s' H.
  unfold connect, nodeClient, failed, bind, request, log, emit, ret, exit in H.
  cbn [trace calls] in H. crack H; leaf H.
Qed.

Lemma chainFacts_strict w cl : ends strict (chainFacts w cl).
Proof.
  intros s r s' H.
  unfold chainFacts, getScheme, isProtobufActivated, failed, bind, request, log, emit,
    ret, exit in H.
  cbn [trace calls] in H. crack H; leaf H.
Qed.

Lemma amountPhase_strict w f ph who : ends strict (amountPhase w f ph who).
Proof.
  intros s r s' H.
  unfold amountPhase, getAvailableWavesBalance, getExtraFee, failed, bind, request, log,
    emit, ret, exit in H.
  cbn [trace calls] in H. crack H; leaf H.
Qed.

Lemma poll_neutral w id fuel : forall s r s',
  poll w fuel id s = (r, s') ->
  exists t,
    trace s' = (trace s ++ t)%list /\
    match r with
    | Next (Some e) =>
        isCanceled e = true /\
        exists t0 reply,
          t = (t0 ++ [Info id reply])%list /\
          Forall (fun e => canceledReply e = false /\ failedReply e = false) t0 /\
          canceled (infoErr reply) = true
    | Return _ => False
    | _ => Forall (fun e => canceledReply e = false /\ failedReply e = false) t
    end.
Proof.
  induction fuel as [ | fuel IH]; intros s r s' H.
  - cbn in H. inversion H; subst. exists []. rewrite app_nil_r. auto.
  - cbn [poll] in H. unfold bind at 1 in H. unfold request at 1 in H. cbv zeta in H.
    set (reply := TransactionsInfo w (calls s) id) in *.
    destruct (canceled (infoErr reply)) eqn:Hc.
    + cbn in H. inversion H; subst; clear H. cbn [trace].
      eexists. split; [ reflexivity | ].
      destruct (infoErr reply) as [e | ] eqn:He; [ | discriminate ].
      split; [ exact Hc | ]. exists [], reply. rewrite He. auto.
    + assert (Hn : canceledReply (Info id reply) = false /\ failedReply (Info id reply) = false)
        by (cbn; auto).
      destruct (infoStatus reply) as [code | ] eqn:Hs.
      * destruct (Z.eqb_spec code 200) as [-> | Hne].
        -- cbn in H. inversion H; subst; clear H. cbn [trace].
           eexists. split; [ reflexivity | ]. repeat constructor; apply Hn.
        -- unfold bind, emit in H. cbn [trace calls] in H.
           apply IH in H. cbn [trace] in H. destruct H as (t & Ht & Hr).
           exists (Info id reply :: Sleep :: t). split.
           ++ rewrite Ht, <- !app_assoc. reflexivity.
           ++ destruct r as [[e | ] | | | ]; try exact Hr.
              ** destruct Hr as (Hi & t0 & rp & -> & Hf & Hcr). split; [ exact Hi | ].
                 exists (Info id reply :: Sleep :: t0), rp. repeat split; auto.
              ** constructor; [ exact Hn | ]. constructor; auto.
              ** constructor; [ exact Hn | ]. constructor; auto.
              ** constructor; [ exact Hn | ]. constructor; auto.
      * cbn in H. inversion H; subst; clear H. cbn [trace].
        eexists. split; [ reflexivity | ]. repeat constructor; apply Hn.
Qed.

Lemma deliver_strict w f fuel ph sch key tx : ends strict (deliver w f fuel ph sch key tx).
Proof.
  intros s r s' H.
  unfold deliver, lib, broadcast, track, failed, bind, request, log, emit, ret, exit in H.
  cbn [trace calls] in H.
  destruct (Sign w sch key tx) as [id | e]; cbn [trace calls] in H; [ | leaf H ].
  destruct (dryRun f); cbn [trace calls] in H.
  { destruct (Marshal w tx); cbn [trace calls] in H; leaf H. }
  destruct (TransactionsBroadcast w (calls s) tx) as [e | ] eqn:Eb; cbn [trace calls] in H.
  { destruct (isCanceled e) eqn:Ec; cbn [trace calls] in H; leaf H. }
  match type of H with
  | context [poll w fuel id ?s0] => destruct (poll w fuel id s0) as [r3 s4] eqn:Ep
  end.
  apply poll_neutral in Ep. cbn [trace] in Ep. destruct Ep as (t & Ht & Hr).
  assert (Hpre : Forall (fun e => canceledReply e = false /\ failedReply e = false)
                   [Signed tx key (Ok id);
                    Log (text ph "[INFO] Transfer transaction ID: %s"
                                 "[INFO] Lease transaction ID: %s");
                    Broadcast tx None;
                    Log "[INFO] Waiting for transaction '%s' on blockchain..."])
    by (repeat constructor).
  destruct r3 as [[e | ] | e | | ]; cbn [trace calls] in H.
  - destruct Hr as (Hi & t0 & reply & -> & Hf & Hcr). rewrite Hi in H.
    inversion H; subst; clear H. rewrite Ht, <- !app_assoc. cbn [app].
    eexists. split; [ reflexivity | ].
    split; [ cbn; auto | ].
    apply (verdict_after (_ :: _ :: _ :: _ :: t0)).
    + apply Forall_app with (l1 := [_; _; _; _]). auto.
    + cbn. rewrite Hcr. auto.
  - inversion H; subst; clear H. rewrite Ht, <- !app_assoc. cbn [app].
    eexists. split; [ reflexivity | ].
    apply strict_quiet; [ exact I | ].
    apply Forall_app with (l1 := [_; _; _; _]). auto.
  - destruct Hr.
  - inversion H; subst; clear H. rewrite Ht, <- !app_assoc. cbn [app].
    eexists. split; [ reflexivity | ].
    apply strict_quiet; [ exact I | ].
    apply Forall_app with (l1 := [_; _; _; _]). auto.
  - inversion H; subst; clear H. rewrite Ht, <- !app_assoc. cbn [app].
    eexists. split; [ reflexivity | ].
    apply strict_quiet; [ exact I | ].
    apply Forall_app with (l1 := [_; _; _; _]). auto.
Qed.

Ltac strictly :=
  first [ exact strict_nil | exact strict_seq | exact strict_log | assumption ].

Lemma transferStep_strict w f fuel c a : ends strict (transferStep w f fuel c a).
Proof.
  unfold transferStep.
  apply ends_bind; [ strictly | apply amountPhase_strict | intros [amount fee] ].
  apply ends_bind; [ strictly | apply ends_timestamp; strictly | intros t ].
  apply deliver_strict.
Qed.

Lemma leaseStep_strict w f fuel c p a : ends strict (leaseStep w f fuel c p a).
Proof.
  assert (HN : strict [] (Returns None)) by (split; exact I).
  unfold leaseStep.
  apply ends_bind; [ strictly | apply amountPhase_strict | intros [amount fee] ].
  apply ends_bind; [ strictly | | intros _ ].
  { apply ends_when; [ strictly | ]. apply ends_when; [ strictly | ].
    apply ends_log_exit; strictly. }
  apply ends_bind; [ strictly | apply ends_timestamp; strictly | intros t ].
  apply ends_bind; [ strictly | apply deliver_strict | intros _ ].
  apply ends_log_exit; strictly.
Qed.

Lemma afterFlags_strict w f fuel url p : ends strict (afterFlags w f fuel url p).
Proof.
  assert (HN : strict [] (Returns None)) by (split; exact I).
  assert (HF : strict [] (Returns (Some errFailure))) by (split; cbn; auto).
  unfold afterFlags, afterFacts.
  apply ends_bind; [ strictly | apply connect_strict | intros cl ].
  apply ends_bind; [ strictly | apply chainFacts_strict | intros c ].
  apply ends_bind; [ strictly | apply ends_resolveAccounts; strictly | intros a ].
  apply ends_bind; [ strictly | apply transferStep_strict | intros _ ].
  destruct (transferOnly f).
  - apply ends_log_exit; strictly.
  - apply leaseStep_strict.
Qed.

Lemma checkFlags_offline w f : ends offline (checkFlags w f).
Proof.
  assert (Q_one : forall e, isQuiet e = true -> offline [e] Goes)
    by (intros e He; split; [ exact I | constructor; auto ]).
  assert (Q_exit : forall err, sentinel (Returns err) -> offline [] (Returns err))
    by (intros err He; split; [ exact He | constructor ]).
  apply ends_checkFlags.
  - split; [ exact I | constructor ].
  - intros t1 t2 o [_ H1] [S2 H2]. split; [ exact S2 | apply Forall_app; auto ].
  - intros line. apply Q_one. reflexivity.
  - apply Q_exit. cbn. auto.
  - apply Q_one. reflexivity.
  - intros line. apply Q_one. reflexivity.
  - apply Q_exit. exact I.
  - apply Q_exit. cbn. auto.
Qed.

Lemma run_split_flags w f fuel s :
  run w f fuel s
  = (up <- checkFlags w f ;;
     let (url, p) := up in
     afterFlags w f fuel url p) s.
Proof.
  rewrite run_split. unfold beforeFacts, afterFlags, bind, ret.
  destruct (checkFlags w f s) as [[[url p] | e | | ] s0]; try reflexivity.
  destruct (connect w url s0) as [[cl | e | | ] s1]; reflexivity.
Qed.

(** However [run] ends: with one of its own errors or nil; with an
    invalid-parameters error only while the log is still quiet; and with
    every cancelled or failed request given its due. *)
Lemma run_ends w f fuel s r s' :
  run w f fuel s = (r, s') ->
  exists t,
    trace s' = (trace s ++ t)%list /\
    sentinel (outcome r) /\
    verdict t (outcome r) /\
    (outcome r = Returns (Some errInvalidParameters) ->
     Forall (fun e => isQuiet e = true) t).
Proof.
  intros H. rewrite run_split_flags in H. unfold bind in H.
  destruct (checkFlags w f s) as [r0 s0] eqn:E0.
  destruct (checkFlags_offline w f s r0 s0 E0) as (t0 & Ht0 & S0 & Q0).
  destruct r0 as [[url p] | e | | ];
    try (inversion H; subst; exists t0;
         repeat split; auto using verdict_quiet; fail).
  destruct (afterFlags_strict w f fuel url p s0 r s' H) as (t1 & Ht1 & F1 & V1).
  exists (t0 ++ t1)%list. split; [ rewrite Ht1, Ht0, app_assoc; reflexivity | ].
  split; [ | split ].
  - destruct (outcome r) as [ | [e | ] | | ]; cbn in *; tauto.
  - apply verdict_after; [ | exact V1 ].
    eapply Forall_impl; [ | exact Q0 ].
    intros e He. destruct e; try discriminate; auto.
  - intros Ho. rewrite Ho in F1. cbn in F1. destruct F1; discriminate.
Qed.

Lemma outcome_returns A (r : Result A) err : outcome r = Returns err -> r = Return err.
Proof. destruct r; cbn; congruence. Qed.

Lemma canceled_not_failed e : canceledReply e = true -> failedReply e = false.
Proof.
  destruct e as [ | | | [ | x] | [ | x] | [ | x] | a [ | x] | a [ | x] | | | tx [x | ] | | ];
    cbn; try reflexivity; intros ->; reflexivity.
Qed.

Lemma verdict_split t1 : forall t e t2 o,
  verdict t o -> t = (t1 ++ e :: t2)%list ->
  (canceledReply e = true -> t2 = [] /\ o = Returns (Some errUserTermination)) /\
  (failedReply e = true ->
   (exists line, t2 = [Log line]) /\ o = Returns (Some errFailure)).
Proof.
  induction t1 as [ | x t1 IH]; intros t e t2 o Hv ->; cbn [app verdict] in Hv.
  - destruct (canceledReply e) eqn:Ec.
    + split; [ auto | ]. rewrite (canceled_not_failed e Ec). discriminate.
    + split; [ discriminate | ]. intros Hf. rewrite Hf in Hv. exact Hv.
  - destruct (canceledReply x).
    + destruct Hv as [Hnil _]. destruct t1; discriminate.
    + destruct (failedReply x).
      * destruct Hv as [[line Hl] _].
        destruct t1 as [ | y t1]; cbn in Hl.
        -- inversion Hl; subst. split; discriminate.
        -- inversion Hl as [[Hy Ht]]. destruct t1; discriminate.
      * eapply IH; [ exact Hv | reflexivity ].
Qed.

(** X7: [run] returns nil or one of its three own errors, so [main] always
    takes one of the four named branches of its switch: status 0 for nil, 2
    with the usage text for invalid parameters, 130 for a user termination
    and 70 for a failure; the default branch with status 1 is never taken. *)
Theorem main_exits_with_one_of_four_statuses (w : World) (f : Flags) (fuel : nat)
    (code : Z) (tr : list Event) :
  main w f fuel = (Some code, tr) ->
  exists err s',
    run w f fuel start = (Return err, s') /\
    ((err = None /\ code = 0 /\ tr = trace s') \/
     (err = Some errInvalidParameters /\ code = 2 /\ tr = (trace s' ++ [Usage])%list) \/
     (err = Some errUserTermination /\ code = 130 /\ tr = trace s') \/
     (err = Some errFailure /\ code = 70 /\ tr = trace s')).
Proof.
  unfold main. destruct (run w f fuel start) as [r s'] eqn:E.
  destruct (run_ends w f fuel start r s' E) as (t & _ & Hs & _).
  destruct r as [[] | err | | ]; try discriminate.
  intros H. exists err, s'. split; [ reflexivity | ].
  cbn in Hs. destruct err as [e | ].
  - destruct Hs as [-> | [-> | ->]]; inversion H; subst; cbn; tauto.
  - inversion H; subst. cbn. tauto.
Qed.

Lemma main_exits_with_one_of_four_statuses_witness :
  exists err s',
    run (sample 1000000000 500000000 0 [feature15]) (flagsOf (-1) 0 false false) 4 start
    = (Return err, s') /\ err = Some errInvalidParameters.
Proof.
  destruct (main_exits_with_one_of_four_statuses
              (sample 1000000000 500000000 0 [feature15]) (flagsOf (-1) 0 false false) 4
              2 _ eq_refl) as (err & s' & Hr & H).
  exists err, s'. split; [ exact Hr | ].
  destruct H as [(_ & Hc & _) | [(He & _) | [(_ & Hc & _) | (_ & Hc & _)]]];
    (exact He || discriminate Hc).
Defined.

(** X8: [run] returns the invalid-parameters error only while it has sent
    nothing to the node and asked for no signature: the log then holds
    nothing but log lines. *)
Theorem invalid_parameters_precede_every_request (w : World) (f : Flags) (fuel : nat)
    (s s' : State) :
  run w f fuel s = (Return (Some errInvalidParameters), s') ->
  exists t,
    trace s' = (trace s ++ t)%list /\ Forall (fun e => isQuiet e = true) t.
Proof.
  intros H. destruct (run_ends w f fuel s _ s' H) as (t & Ht & _ & _ & Hq).
  exists t. split; [ exact Ht | apply Hq; reflexivity ].
Qed.

Lemma invalid_parameters_precede_every_request_witness :
  exists t,
    trace (snd (run (sample 1000000000 500000000 0 [feature15])
                  (flagsOf (-1) 0 false false) 4 start))
    = (trace start ++ t)%list /\ Forall (fun e => isQuiet e = true) t.
Proof.
  apply (invalid_parameters_precede_every_request
           (sample 1000000000 500000000 0 [feature15]) (flagsOf (-1) 0 false false) 4 start).
  vm_compute. reflexivity.
Defined.

(** X9: a request that the node answers with the cancellation, be it the
    height, the last block, the activation status, a balance, a script
    info, a broadcast or a poll, is the last thing a run does: nothing is
    logged, signed or sent after it, and [run] returns
    [errUserTermination]. *)
Theorem cancelled_request_ends_the_run (w : World) (f : Flags) (fuel : nat)
    (s s' : State) (r : Result unit) (t1 t2 : list Event) (e : Event) :
  run w f fuel s = (r, s') ->
  trace s' = (trace s ++ t1 ++ e :: t2)%list ->
  canceledReply e = true ->
  t2 = [] /\ r = Return (Some errUserTermination).
Proof.
  intros H Ht Hc.
  destruct (run_ends w f fuel s r s' H) as (t & Ht' & _ & Hv & _).
  rewrite Ht in Ht'. apply app_inv_head in Ht'.
  destruct (verdict_split t1 t e t2 _ Hv (eq_sym Ht')) as [Hcan _].
  destruct (Hcan Hc) as [Hnil Ho]. split; [ exact Hnil | ].
  apply outcome_returns. exact Ho.
Qed.

Lemma cancelled_request_ends_the_run_witness :
  fst (run (interrupted (sample 1000000000 500000000 0 [feature15]) 3)
         (flagsOf waves 0 false false) 4 start)
  = Return (Some errUserTermination).
Proof.
  set (w := interrupted (sample 1000000000 500000000 0 [feature15]) 3).
  set (f := flagsOf waves 0 false false).
  refine (proj2 (cancelled_request_ends_the_run w f 4 start (snd (run w f 4 start))
                   (fst (run w f 4 start))
                   (firstn 13 (trace (snd (run w f 4 start)))) []
                   (BalanceDetails "3P-pk-GeneratorKey" (Err contextCanceled))
                   (surjective_pairing _) _ eq_refl)).
  vm_compute. reflexivity.
Defined.

(** X10: a request other than a poll that fails for another reason than a
    cancellation is followed by exactly one log line, after which [run]
    returns [errFailure]: a failed request is never retried and nothing is
    signed or sent after it. *)
Theorem failed_request_ends_the_run (w : World) (f : Flags) (fuel : nat)
    (s s' : State) (r : Result unit) (t1 t2 : list Event) (e : Event) :
  run w f fuel s = (r, s') ->
  trace s' = (trace s ++ t1 ++ e :: t2)%list ->
  failedReply e = true ->
  (exists line, t2 = [Log line]) /\ r = Return (Some errFailure).
Proof.
  intros H Ht Hc.
  destruct (run_ends w f fuel s r s' H) as (t & Ht' & _ & Hv & _).
  rewrite Ht in Ht'. apply app_inv_head in Ht'.
  destruct (verdict_split t1 t e t2 _ Hv (eq_sym Ht')) as [_ Hfail].
  destruct (Hfail Hc) as [Hlog Ho]. split; [ exact Hlog | ].
  apply outcome_returns. exact Ho.
Qed.

Lemma failed_request_ends_the_run_witness :
  fst (run (unreachable (sample 1000000000 500000000 0 [feature15]))
         (flagsOf waves 0 false false) 4 start)
  = Return (Some errFailure).
Proof.
  set (w := unreachable (sample 1000000000 500000000 0 [feature15])).
  set (f := flagsOf waves 0 false false).
  refine (proj2 (failed_request_ends_the_run w f 4 start (snd (run w f 4 start))
                   (fst (run w f 4 start))
                   (firstn 3 (trace (snd (run w f 4 start))))
                   [Log "[ERROR] Failed to connect to node at '%s': %v"]
                   (Height (Err (otherError "connection refused")))
                   (surjective_pairing _) _ eq_refl)).
  vm_compute. reflexivity.
Defined.

(** ** Each transaction once, and in order *)

Section Graded.

Variable Q : nat -> list Event -> Prop.
Hypothesis Q_nil : Q 0%nat [].
Hypothesis Q_app :
  forall n1 n2 t1 t2, Q n1 t1 -> Q n2 t2 -> Q (n1 + n2)%nat (t1 ++ t2)%list.
Hypothesis Q_mono : forall n n' t, (n <= n')%nat -> Q n t -> Q n' t.
Hypothesis Q_log : forall line, Q 0%nat [Log line].

Ltac basics := first [ exact Q_nil | exact Q_app | exact Q_mono | exact Q_log ].

Lemma graded_deliver w f fuel ph sch key tx nS nB :
  (forall r, Q nS [Signed tx key r]) ->
  (dryRun f = true -> forall r, Q 0%nat [Rendered tx r]) ->
  (dryRun f = false ->
     (forall r, Q nB [Broadcast tx r]) /\
     (forall id r, Q 0%nat [Info id r]) /\ Q 0%nat [Sleep]) ->
  frames Q (nS + nB) (deliver w f fuel ph sch key tx).
Proof.
  intros HS HR HB. unfold deliver.
  apply frames_bind; try basics; [ apply frames_lib; try basics; apply HS | intros r ].
  destruct r as [id | e].
  2:{ apply frames_mono with 0%nat; try basics; [ lia | ].
      apply frames_seq; try basics; [ apply frames_log; basics | intros _ ].
      apply frames_exit; basics. }
  destruct (dryRun f).
  - apply frames_mono with 0%nat; try basics; [ lia | ].
    apply frames_seq; try basics;
      [ apply frames_lib; try basics; apply HR; reflexivity | intros r ].
    destruct r.
    + apply frames_log; basics.
    + apply frames_seq; try basics; [ apply frames_log; basics | intros _ ].
      apply frames_exit; basics.
  - destruct (HB eq_refl) as (H1 & H2 & H3).
    apply frames_mono with (0 + (nB + 0))%nat; try basics; [ lia | ].
    apply frames_bind; try basics; [ apply frames_log; basics | intros _ ].
    apply frames_bind; try basics; [ apply frames_request, H1 | intros r ].
    destruct r as [e | ]; [ apply frames_failed; basics | ].
    apply frames_seq; try basics; [ apply frames_track; try basics; auto | intros r ].
    destruct r as [e | ]; [ apply frames_failed; basics | apply frames_ret; basics ].
Qed.

Lemma graded_transferStep w f fuel c a d :
  (forall x r, Q 0%nat [BalanceDetails x r]) -> (forall x r, Q 0%nat [ScriptInfo x r]) ->
  (forall t key, frames Q d (deliver w f fuel TransferPhase (scheme c) key (TransferTx t))) ->
  frames Q d (transferStep w f fuel c a).
Proof.
  intros HB HF HD. unfold transferStep.
  apply frames_mono with ((0 + 0) + (0 + d))%nat; try basics; [ lia | ].
  apply frames_bind; try basics;
    [ apply frames_amountPhase; try basics; auto | intros [amount fee] ].
  apply frames_bind; try basics; [ apply frames_timestamp; basics | intros t ].
  apply HD.
Qed.

Lemma graded_leaseStep w f fuel c p a d :
  (forall x r, Q 0%nat [BalanceDetails x r]) -> (forall x r, Q 0%nat [ScriptInfo x r]) ->
  (forall l key, frames Q d (deliver w f fuel LeasePhase (scheme c) key (LeaseTx l))) ->
  frames Q d (leaseStep w f fuel c p a).
Proof.
  intros HB HF HD. unfold leaseStep.
  apply frames_mono with ((0 + 0) + (0 + (0 + (d + 0))))%nat; try basics; [ lia | ].
  apply frames_bind; try basics;
    [ apply frames_amountPhase; try basics; auto | intros [amount fee] ].
  apply frames_bind; try basics.
  { apply frames_when; try basics. apply frames_when; try basics.
    apply frames_seq; try basics; [ apply frames_log; basics | intros _ ].
    apply frames_exit; basics. }
  intros _.
  apply frames_bind; try basics; [ apply frames_timestamp; basics | intros t ].
  apply frames_bind; try basics; [ apply HD | intros _ ].
  apply frames_seq; try basics; [ apply frames_log; basics | intros _ ].
  apply frames_exit; basics.
Qed.

Lemma graded_run w f fuel dT dL :
  Q 0%nat [Usage] -> (forall line, Q 0%nat [Stdout line]) ->
  (forall r, Q 0%nat [Height r]) ->
  (forall r, Q 0%nat [LastBlock r]) -> (forall r, Q 0%nat [ActivationStatus r]) ->
  (forall x r, Q 0%nat [BalanceDetails x r]) -> (forall x r, Q 0%nat [ScriptInfo x r]) ->
  (forall sch t key,
     frames Q dT (deliver w f fuel TransferPhase sch key (TransferTx t))) ->
  (forall sch l key,
     frames Q dL (deliver w f fuel LeasePhase sch key (LeaseTx l))) ->
  frames Q (dT + dL) (run w f fuel).
Proof.
  intros HU HO HH HL HA HB HF HT HLe. unfold run.
  apply frames_bind; try basics.
  - unfold throughTransfer.
    apply frames_mono with (0 + (0 + (0 + (0 + (dT + 0)))))%nat; try basics; [ lia | ].
    apply frames_bind; try basics;
      [ apply frames_checkFlags; try basics; assumption | intros [url p] ].
    apply frames_bind; try basics;
      [ apply frames_connect; try basics; assumption | intros cl ].
    apply frames_bind; try basics;
      [ apply frames_chainFacts; try basics; assumption | intros c ].
    apply frames_bind; try basics;
      [ apply frames_resolveAccounts; basics | intros a ].
    apply frames_bind; try basics; [ | intros _; apply frames_ret; basics ].
    apply graded_transferStep; auto.
  - intros [[c p] a]. destruct (transferOnly f).
    + apply frames_mono with 0%nat; try basics; [ lia | ].
      apply frames_seq; try basics; [ apply frames_log; basics | intros _ ].
      apply frames_exit; basics.
    + apply graded_leaseStep; auto.
Qed.

End Graded.

(** X11: in one run a signature is asked for at most one transfer and at
    most one lease, and at most one transfer and at most one lease are
    broadcast: no transaction is signed or submitted twice. *)
Theorem no_transaction_twice (w : World) (f : Flags) (fuel : nat) (s s' : State)
    (r : Result unit) :
  run w f fuel s = (r, s') ->
  exists t,
    trace s' = (trace s ++ t)%list /\
    forall lease signature, (count (isTxEvent lease signature) t <= 1)%nat.
Proof.
  intros H.
  assert (Hq : forall lease signature,
             frames (within (fun _ => True) (isTxEvent lease signature)) 1 (run w f fuel)).
  { intros lease signature.
    set (p := isTxEvent lease signature).
    set (Q := within (fun _ : Event => True) p).
    assert (Q_nil : Q 0%nat []) by apply within_nil.
    assert (Q_app : forall n1 n2 t1 t2,
               Q n1 t1 -> Q n2 t2 -> Q (n1 + n2)%nat (t1 ++ t2)%list)
      by (intros; apply within_app; assumption).
    assert (Q_mono : forall n n' t, (n <= n')%nat -> Q n t -> Q n' t)
      by (intros n n' t; apply within_mono).
    assert (Q_free : forall e, p e = false -> Q 0%nat [e]).
    { intros e He. apply within_one; [ exact I | rewrite He; lia ]. }
    assert (Q_log : forall line, Q 0%nat [Log line]) by (intros; apply Q_free; reflexivity).
    set (nS (l : bool) := if signature && Bool.eqb l lease then 1%nat else 0%nat).
    set (nB (l : bool) := if negb signature && Bool.eqb l lease then 1%nat else 0%nat).
    assert (Q_deliver : forall ph sch key tx,
               frames Q (nS (isLease tx) + nB (isLease tx))
                 (deliver w f fuel ph sch key tx)).
    { intros ph sch key tx.
      apply (graded_deliver Q Q_nil Q_app Q_mono Q_log).
      - intros r0. apply within_one; [ exact I | ].
        unfold p, nS. cbn. destruct (signature && Bool.eqb (isLease tx) lease); lia.
      - intros _ r0. apply Q_free. reflexivity.
      - intros _. split; [ | split ].
        + intros r0. apply within_one; [ exact I | ].
          unfold p, nB. cbn. destruct (negb signature && Bool.eqb (isLease tx) lease); lia.
        + intros id r0. apply Q_free. reflexivity.
        + apply Q_free. reflexivity. }
    apply (frames_mono Q Q_mono _ _
             ((nS false + nB false) + (nS true + nB true))%nat).
    { unfold nS, nB. destruct signature, lease; cbn; lia. }
    apply (graded_run Q Q_nil Q_app Q_mono Q_log); intros;
      try (apply Q_free; reflexivity).
    - exact (Q_deliver TransferPhase sch key (TransferTx t)).
    - exact (Q_deliver LeasePhase sch key (LeaseTx l)). }
  destruct (Hq false false s r s' H) as (t & Ht & _).
  exists t. split; [ exact Ht | ].
  intros lease signature.
  destruct (Hq lease signature s r s' H) as (t' & Ht' & _ & Hc).
  rewrite Ht in Ht'. apply app_inv_head in Ht'. subst t'. exact Hc.
Qed.

Lemma no_transaction_twice_witness :
  exists t,
    trace (snd (run (sample 1000000000 500000000 0 [feature15])
                  (flagsOf waves 0 false false) 4 start))
    = (trace start ++ t)%list /\
    (count (isTxEvent true false) t <= 1)%nat.
Proof.
  destruct (no_transaction_twice (sample 1000000000 500000000 0 [feature15])
              (flagsOf waves 0 false false) 4 start _ _ (surjective_pairing _))
    as (t & Ht & Hc).
  exists t. split; [ exact Ht | apply Hc ].
Defined.

(** ** Signed, then broadcast, then tracked *)

Lemma allowedAfter_mono past past' e :
  (forall x, In x past -> In x past') -> allowedAfter past e -> allowedAfter past' e.
Proof.
  intros Hin. destruct e; cbn; auto.
  - intros (key & id & H). eauto.
  - intros (key & id & H). eauto.
  - intros (tx & key & H1 & H2). eauto 6.
Qed.

Lemma inOrder_mono t : forall past past',
  (forall x, In x past -> In x past') -> inOrder past t -> inOrder past' t.
Proof.
  induction t as [ | e t IH]; intros past past' Hin; cbn [inOrder]; [ auto | ].
  intros [H1 H2]. split; [ eapply allowedAfter_mono; eauto | ].
  eapply IH; [ | exact H2 ].
  intros x Hx. apply in_app_iff in Hx. apply in_app_iff. destruct Hx; auto.
Qed.

Lemma inOrder_app t1 : forall past t2,
  inOrder past t1 -> inOrder (past ++ t1) t2 -> inOrder past (t1 ++ t2).
Proof.
  induction t1 as [ | e t1 IH]; intros past t2 H1 H2; cbn [app inOrder] in *.
  - rewrite app_nil_r in H2. exact H2.
  - destruct H1 as [Ha H1]. split; [ exact Ha | ].
    apply IH; [ exact H1 | ]. rewrite <- app_assoc. exact H2.
Qed.

Lemma inOrder_split t1 : forall past t e t2,
  inOrder past t -> t = (t1 ++ e :: t2)%list -> allowedAfter (past ++ t1) e.
Proof.
  induction t1 as [ | x t1 IH]; intros past t e t2 H ->; cbn [app inOrder] in H.
  - rewrite app_nil_r. apply H.
  - destruct H as [_ H].
    replace (past ++ x :: t1)%list with ((past ++ [x]) ++ t1)%list
      by (rewrite <- app_assoc; reflexivity).
    eapply IH; [ exact H | reflexivity ].
Qed.

Lemma inOrder_free t : forall past,
  Forall (fun e => match e with
                   | Rendered _ _ | Broadcast _ _ | Info _ _ => False
                   | _ => True
                   end) t ->
  inOrder past t.
Proof.
  induction t as [ | e t IH]; intros past H; cbn [inOrder]; [ exact I | ].
  inversion H; subst. split; [ | apply IH; assumption ].
  destruct e; cbn; auto; contradiction.
Qed.

(** The polls of [track] bear the identifier it was given. *)
Lemma track_polls_its_id w fuel id :
  frames (fun _ t => Forall (fun e => match e with
                                      | Log _ | Sleep => True
                                      | Info id' _ => id' = id
                                      | _ => False
                                      end) t) 0 (track w fuel id).
Proof.
  apply frames_track.
  - constructor.
  - intros n1 n2 t1 t2 H1 H2. apply Forall_app. auto.
  - intros n n' t _ H. exact H.
  - intros line. repeat constructor.
  - intros r. repeat constructor.
  - repeat constructor.
Qed.

Lemma inOrder_polls id tx key t : forall past,
  In (Signed tx key (Ok id)) past -> In (Broadcast tx None) past ->
  Forall (fun e => match e with
                   | Log _ | Sleep => True
                   | Info id' _ => id' = id
                   | _ => False
                   end) t ->
  inOrder past t.
Proof.
  induction t as [ | e t IH]; intros past HS HB H; cbn [inOrder]; [ exact I | ].
  inversion H as [ | ? ? He Ht]; subst. split.
  - destruct e; cbn; try contradiction; auto.
    subst. exists tx, key. auto.
  - apply IH; [ apply in_app_iff; auto | apply in_app_iff; auto | exact Ht ].
Qed.

Lemma deliver_inOrder w f fuel ph sch key tx :
  frames (fun _ t => inOrder [] t) 0 (deliver w f fuel ph sch key tx).
Proof.
  intros s r s' H.
  unfold deliver, lib, broadcast, failed, bind, request, log, emit, ret, exit in H.
  cbn [trace calls] in H.
  destruct (Sign w sch key tx) as [id | e]; cbn [trace calls] in H.
  2:{ inversion H; subst; clear H. cbn [trace]. rewrite <- ?app_assoc.
      eexists. split; [ reflexivity | ]. cbn. auto. }
  destruct (dryRun f); cbn [trace calls] in H.
  { destruct (Marshal w tx); cbn [trace calls] in H;
      inversion H; subst; clear H; cbn [trace]; rewrite <- ?app_assoc;
      (eexists; split; [ reflexivity | ]); cbn; eauto 10. }
  destruct (TransactionsBroadcast w (calls s) tx) as [e | ] eqn:Eb; cbn [trace calls] in H.
  { destruct (isCanceled e); cbn [trace calls] in H;
      inversion H; subst; clear H; cbn [trace]; rewrite <- ?app_assoc;
      (eexists; split; [ reflexivity | ]); cbn; eauto 10. }
  match type of H with
  | context [track w fuel id ?s0] => destruct (track w fuel id s0) as [r3 s4] eqn:Et
  end.
  destruct (track_polls_its_id w fuel id _ _ _ Et) as (t & Ht & Hp). cbn [trace] in Ht.
  assert (Hord : inOrder [] ([Signed tx key (Ok id);
                              Log (text ph "[INFO] Transfer transaction ID: %s"
                                           "[INFO] Lease transaction ID: %s");
                              Broadcast tx None] ++ t)).
  { apply inOrder_app; [ cbn; eauto 10 | ].
    apply (inOrder_polls id tx key); cbn; auto. }
  assert (Hlog : forall line, inOrder [] (([Signed tx key (Ok id);
                              Log (text ph "[INFO] Transfer transaction ID: %s"
                                           "[INFO] Lease transaction ID: %s");
                              Broadcast tx None] ++ t) ++ [Log line])).
  { intros line. apply inOrder_app; [ exact Hord | cbn; auto ]. }
  destruct r3 as [[e | ] | e | | ]; [ destruct (isCanceled e) | | | | ];
    cbn [trace calls] in H; inversion H; subst; clear H; cbn [trace];
    rewrite Ht, <- ?app_assoc;
    (eexists; split; [ reflexivity | ]);
    first [ exact Hord | exact (Hlog _) ].
Qed.

(** X12: within a run, a transaction is rendered or broadcast only after a
    signature was obtained for it, and an identifier is polled only after
    the transaction that was signed under it was broadcast without error. *)
Theorem nothing_sent_before_signed (w : World) (f : Flags) (fuel : nat) (s s' : State)
    (r : Result unit) (t1 t2 : list Event) (e : Event) :
  run w f fuel s = (r, s') ->
  trace s' = (trace s ++ t1 ++ e :: t2)%list ->
  allowedAfter t1 e.
Proof.
  intros H Ht.
  set (Q := fun (_ : nat) t => inOrder [] t).
  assert (Q_nil : Q 0%nat []) by exact I.
  assert (Q_app : forall n1 n2 t1 t2, Q n1 t1 -> Q n2 t2 -> Q (n1 + n2)%nat (t1 ++ t2)%list).
  { intros n1 n2 u1 u2 H1 H2. apply inOrder_app; [ exact H1 | ].
    eapply inOrder_mono; [ | exact H2 ]. intros x []. }
  assert (Q_mono : forall n n' t, (n <= n')%nat -> Q n t -> Q n' t) by (intros; assumption).
  assert (Q_free : forall e0, match e0 with
                              | Rendered _ _ | Broadcast _ _ | Info _ _ => False
                              | _ => True
                              end -> Q 0%nat [e0]).
  { intros e0 He. apply inOrder_free. constructor; [ exact He | constructor ]. }
  assert (Q_log : forall line, Q 0%nat [Log line]) by (intros; apply Q_free; exact I).
  assert (Q_run : frames Q (0 + 0 + (if transferOnly f then 0 else 0 + 0)) (run w f fuel)).
  { apply (frames_run Q Q_nil Q_app Q_mono Q_log); intros;
      try (apply Q_free; exact I); apply deliver_inOrder. }
  destruct (Q_run s r s' H) as (t & Ht' & Hord).
  rewrite Ht in Ht'. apply app_inv_head in Ht'.
  exact (inOrder_split t1 [] t e t2 Hord (eq_sym Ht')).
Qed.

Lemma nothing_sent_before_signed_witness :
  exists key id,
    In (Signed (LeaseTx {| lVersion := 3; lSenderPK := "pk-LessorKey";
                           lRecipient := "3P-pk-GeneratorKey"; lAmount := 399900000;
                           lFee := 100000; lTimestamp := 1700000000000 |}) key (Ok id))
       (firstn 32 (trace (snd (run (sample 1000000000 500000000 0 [feature15])
                                 (flagsOf waves 0 false false) 4 start)))).
Proof.
  set (w := sample 1000000000 500000000 0 [feature15]).
  set (f := flagsOf waves 0 false false).
  refine (nothing_sent_before_signed w f 4 start (snd (run w f 4 start))
            (fst (run w f 4 start))
            (firstn 32 (trace (snd (run w f 4 start))))
            (skipn 33 (trace (snd (run w f 4 start))))
            (Broadcast (LeaseTx {| lVersion := 3; lSenderPK := "pk-LessorKey";
                                   lRecipient := "3P-pk-GeneratorKey";
                                   lAmount := 399900000; lFee := 100000;
                                   lTimestamp := 1700000000000 |}) None)
            (surjective_pairing _) _).
  vm_compute. reflexivity.
Defined.

(** ** The accounts of the two transactions *)

(** Step 3: the generator's account is derived from its secret key; outside
    the transfer-only mode the transfer goes to the lessor, whose address is
    that of the public key in use, and the lease goes to the generator
    unless a leasing address was given. *)
Lemma resolveAccounts_accounts w f p sch s a s' :
  resolveAccounts w f p sch s = (Next a, s') ->
  sk (generator a) = gSK p /\
  pk (generator a) = GeneratePublicKey w (gSK p) /\
  NewAddressFromPublicKey w sch (pk (generator a)) = Ok (addr (generator a)) /\
  (transferOnly f = false ->
   transferRecipient a = lessor a /\
   NewAddressFromPublicKey w sch (pk (lessor a)) = Ok (addr (lessor a)) /\
   (leasingAddr p = None -> leasingRecipient a = generator a)).
Proof.
  unfold resolveAccounts, accountFromSK, accountFromSKAndDifferentPK, bind, log, emit,
    exit, ret.
  destruct (NewAddressFromPublicKey w sch (GeneratePublicKey w (gSK p))) as [ga | e] eqn:Eg;
    cbn [trace calls]; [ | discriminate ].
  destruct (transferOnly f); cbn [trace calls].
  - intros H. inversion H; subst; clear H. cbn.
    split; [ reflexivity | ]. split; [ reflexivity | ]. split; [ exact Eg | ].
    intros Hx. discriminate Hx.
  - destruct (differentLessorPK p) as [k | ].
    + destruct (NewAddressFromPublicKey w sch k) as [la | e] eqn:El;
        cbn [trace calls]; [ | discriminate ].
      intros H. inversion H; subst; clear H. cbn.
      split; [ reflexivity | ]. split; [ reflexivity | ]. split; [ exact Eg | ].
      intros _. split; [ reflexivity | ]. split; [ exact El | ].
      intros ->. reflexivity.
    + destruct (NewAddressFromPublicKey w sch (GeneratePublicKey w (lSK p)))
        as [la | e] eqn:El; cbn [trace calls]; [ | discriminate ].
      intros H. inversion H; subst; clear H. cbn.
      split; [ reflexivity | ]. split; [ reflexivity | ]. split; [ exact Eg | ].
      intros _. split; [ reflexivity | ]. split; [ exact El | ].
      intros ->. reflexivity.
Qed.

(** What the two steps put into the transactions they have signed. *)
Lemma steps_use_the_accounts w f fuel c p a :
  frames (fun _ t =>
            Forall (fun e =>
                      match e with
                      | Signed (TransferTx tr) k _ =>
                          tSenderPK tr = pk (generator a) /\ k = sk (generator a) /\
                          tRecipient tr = addr (transferRecipient a)
                      | Signed (LeaseTx l) k _ =>
                          transferOnly f = false /\
                          lSenderPK l = pk (lessor a) /\ k = lSK p /\
                          lRecipient l = addr (leasingRecipient a)
                      | _ => True
                      end) t) 0
    (transferStep w f fuel c a ;;
     if transferOnly f then log "[INFO] OK" ;; exit None
     else leaseStep w f fuel c p a).
Proof.
  match goal with |- frames ?Q0 _ _ => set (Q := Q0) end.
  assert (Q_nil : Q 0%nat []) by constructor.
  assert (Q_app : forall n1 n2 t1 t2, Q n1 t1 -> Q n2 t2 -> Q (n1 + n2)%nat (t1 ++ t2)%list)
    by (intros n1 n2 t1 t2 H1 H2; apply Forall_app; auto).
  assert (Q_mono : forall n n' t, (n <= n')%nat -> Q n t -> Q n' t) by (intros; assumption).
  assert (Q_free : forall e, isSignature e = false -> Q 0%nat [e]).
  { intros e He. constructor; [ | constructor ]. destruct e; try exact I; discriminate. }
  assert (Q_log : forall line, Q 0%nat [Log line]) by (intros; apply Q_free; reflexivity).
  assert (Q_amount : forall ph who, frames Q (0 + 0) (amountPhase w f ph who)).
  { intros ph who. apply (frames_amountPhase Q Q_nil Q_app Q_mono Q_log);
      intros; apply Q_free; reflexivity. }
  apply (frames_seq Q Q_app Q_mono).
  - unfold transferStep.
    apply (frames_seq Q Q_app Q_mono); [ apply Q_amount | intros [amount fee] ].
    apply (frames_seq Q Q_app Q_mono);
      [ apply (frames_timestamp Q Q_nil) | intros t ].
    apply (frames_deliver Q Q_nil Q_app Q_mono Q_log).
    + intros r. constructor; [ cbn; auto | constructor ].
    + intros _ r. apply Q_free. reflexivity.
    + intros _. split; [ | split ]; intros; apply Q_free; reflexivity.
  - intros _. destruct (transferOnly f) eqn:Eo.
    + apply (frames_seq Q Q_app Q_mono);
        [ apply (frames_log Q Q_log) | intros _; apply (frames_exit Q Q_nil) ].
    + unfold leaseStep.
      apply (frames_seq Q Q_app Q_mono); [ apply Q_amount | intros [amount fee] ].
      apply (frames_seq Q Q_app Q_mono).
      { apply (frames_when Q Q_nil). apply (frames_when Q Q_nil).
        apply (frames_seq Q Q_app Q_mono);
          [ apply (frames_log Q Q_log) | intros _; apply (frames_exit Q Q_nil) ]. }
      intros _.
      apply (frames_seq Q Q_app Q_mono);
        [ apply (frames_timestamp Q Q_nil) | intros t ].
      apply (frames_seq Q Q_app Q_mono).
      * apply (frames_deliver Q Q_nil Q_app Q_mono Q_log).
        -- intros r. constructor; [ cbn; auto | constructor ].
        -- intros _ r. apply Q_free. reflexivity.
        -- intros _. split; [ | split ]; intros; apply Q_free; reflexivity.
      * intros _. apply (frames_seq Q Q_app Q_mono);
          [ apply (frames_log Q Q_log) | intros _; apply (frames_exit Q Q_nil) ].
Qed.

Lemma gives_ret A (R : A -> Prop) a : R a -> gives R (ret a).
Proof. intros Ha s a' s' H. inversion H; subst. exact Ha. Qed.

Lemma gives_exit A (R : A -> Prop) err : gives R (exit err).
Proof. intros s a s' H. discriminate H. Qed.

Lemma gives_after A B (R1 : A -> Prop) (R : B -> Prop) (m : M A) (k : A -> M B) :
  gives R1 m -> (forall a, R1 a -> gives R (k a)) -> gives R (bind m k).
Proof.
  intros Hm Hk s b s' H. unfold bind in H.
  destruct (m s) as [[a | e | | ] s1] eqn:E; try discriminate.
  exact (Hk a (Hm s a s1 E) s1 b s' H).
Qed.

Lemma gives_bind A B (R : B -> Prop) (m : M A) (k : A -> M B) :
  (forall a, gives R (k a)) -> gives R (bind m k).
Proof.
  intros Hk. apply (gives_after A B (fun _ => True)).
  - intros s a s' _. exact I.
  - intros a _. apply Hk.
Qed.

Lemma gives_log_exit A (R : A -> Prop) line err : gives R (log line ;; exit err).
Proof. apply gives_bind. intros _. apply gives_exit. Qed.

(** Without a leasing address on the command line, none is kept. *)
Lemma checkFlags_without_leasing_address w f :
  gives (fun up : string * Params =>
           String.eqb (leasingAddress f) "" = true -> leasingAddr (snd up) = None)
        (checkFlags w f).
Proof.
  unfold checkFlags.
  do 3 (apply gives_bind; intros _).
  destruct (normalizeURL w (nodeURL f)) as [u err].
  do 2 (apply gives_bind; intros _).
  destruct (NewSecretKeyFromBase58 w (generatorSK f)) as [g | e];
    [ | apply gives_log_exit ].
  apply (gives_after _ _ (fun p => String.eqb (leasingAddress f) "" = true ->
                                   leasingAddr p = None)).
  - unfold decodeKeys. destruct (transferOnly f).
    + apply gives_bind; intros _.
      destruct (String.eqb (recipientAddress f) ""); [ apply gives_log_exit | ].
      destruct (NewAddressFromString w (recipientAddress f)) as [x | e];
        [ | apply gives_log_exit ].
      apply gives_ret. reflexivity.
    + destruct (String.eqb (lessorSK f) ""); [ apply gives_log_exit | ].
      destruct (NewSecretKeyFromBase58 w (lessorSK f)) as [l | e];
        [ | apply gives_log_exit ].
      apply gives_bind; intros k.
      apply (gives_after _ _ (fun x => String.eqb (leasingAddress f) "" = true -> x = None)).
      * destruct (String.eqb (leasingAddress f) "").
        -- apply gives_bind; intros _. apply gives_ret. reflexivity.
        -- destruct (NewAddressFromString w (leasingAddress f)) as [x | e];
             [ | apply gives_log_exit ].
           apply gives_ret. discriminate.
      * intros x Hx. apply gives_ret. exact Hx.
  - intros p Hp. do 4 (apply gives_bind; intros _). apply gives_ret. exact Hp.
Qed.

Lemma beforeFacts_without_leasing_address w f :
  gives (fun pc : Params * Client =>
           String.eqb (leasingAddress f) "" = true -> leasingAddr (fst pc) = None)
        (beforeFacts w f).
Proof.
  unfold beforeFacts.
  eapply gives_after; [ apply checkFlags_without_leasing_address | ].
  intros [url p] Hp. apply gives_bind; intros cl. apply gives_ret. exact Hp.
Qed.

Lemma resolveAccounts_signs_nothing w f p sch :
  frames (fun _ t => Forall (fun e => txOf e = None) t) 0 (resolveAccounts w f p sch).
Proof.
  apply frames_resolveAccounts.
  - constructor.
  - intros n1 n2 t1 t2 H1 H2. apply Forall_app. auto.
  - intros n n' t _ H. exact H.
  - intros line. repeat constructor.
Qed.

(** X13: in every run the transfer is signed with the secret key of its
    sender's public key, and if a lease is signed as well, its sender's
    public key is the one whose address (on the chain's scheme) received the
    transfer; unless a leasing address was given on the command line, the
    lease goes to the address of the transfer's sender, the generator. *)
Theorem lease_spends_what_the_transfer_funded (w : World) (f : Flags) (fuel : nat)
    (s s' : State) (r : Result unit) (t : list Event)
    (tr : Transfer) (k1 : SecretKey) (r1 : result Digest) :
  run w f fuel s = (r, s') ->
  trace s' = (trace s ++ t)%list ->
  In (Signed (TransferTx tr) k1 r1) t ->
  tSenderPK tr = GeneratePublicKey w k1 /\
  forall l k2 r2,
    In (Signed (LeaseTx l) k2 r2) t ->
    exists sch,
      NewAddressFromPublicKey w sch (lSenderPK l) = Ok (tRecipient tr) /\
      (String.eqb (leasingAddress f) "" = true ->
       NewAddressFromPublicKey w sch (tSenderPK tr) = Ok (lRecipient l)).
Proof.
  intros H Ht Hin. rewrite run_split in H. unfold bind at 1 in H.
  assert (Hnone : forall u e, Forall (fun e => txOf e = None) u -> In e u ->
                              isSignature e = true -> False).
  { intros u e Hu He Hs. rewrite Forall_forall in Hu. specialize (Hu e He).
    destruct e; discriminate. }
  destruct (beforeFacts w f s) as [r0 s0] eqn:E0.
  destruct (beforeFacts_quiet w f s r0 s0 E0) as (t0 & Ht0 & F0 & _).
  pose proof (beforeFacts_without_leasing_address w f s) as Hp.
  destruct r0 as [[p cl] | e0 | | ];
    try (inversion H; subst; rewrite Ht in Ht0; apply app_inv_head in Ht0; subst t0;
         exfalso; exact (Hnone _ _ F0 Hin eq_refl)).
  specialize (Hp (p, cl) s0 E0). cbn [fst] in Hp.
  unfold bind at 1 in H.
  destruct (chainFacts w cl s0) as [r1' s1] eqn:E1.
  destruct (chainFacts_version w cl s0 r1' s1 E1) as (t1 & Ht1 & [F1 _] & _).
  destruct r1' as [c | e1 | | ];
    try (inversion H; subst; rewrite Ht1, Ht0, <- app_assoc in Ht;
         apply app_inv_head in Ht; subst t; apply in_app_iff in Hin;
         exfalso; destruct Hin as [Hin | Hin];
         [ exact (Hnone _ _ F0 Hin eq_refl) | exact (Hnone _ _ F1 Hin eq_refl) ]).
  unfold afterFacts in H. unfold bind at 1 in H.
  destruct (resolveAccounts w f p (scheme c) s1) as [ra sa] eqn:Ea.
  destruct (resolveAccounts_signs_nothing w f p (scheme c) s1 ra sa Ea) as (ta & Hta & Fa).
  destruct ra as [a | ea | | ];
    try (inversion H; subst; rewrite Hta, Ht1, Ht0, <- !app_assoc in Ht;
         apply app_inv_head in Ht; subst t; rewrite !in_app_iff in Hin;
         exfalso; destruct Hin as [Hin | [Hin | Hin]];
         [ exact (Hnone _ _ F0 Hin eq_refl) | exact (Hnone _ _ F1 Hin eq_refl)
         | exact (Hnone _ _ Fa Hin eq_refl) ]).
  destruct (resolveAccounts_accounts w f p (scheme c) s1 a sa Ea)
    as (Hgsk & Hgpk & Hgaddr & Hlessor).
  destruct (steps_use_the_accounts w f fuel c p a sa r s' H) as (tb & Htb & Fb).
  rewrite Htb, Hta, Ht1, Ht0, <- !app_assoc in Ht. apply app_inv_head in Ht. subst t.
  rewrite Forall_forall in Fb.
  assert (Hsigned : forall e, In e (t0 ++ t1 ++ ta ++ tb) -> isSignature e = true -> In e tb).
  { intros e He Hs. rewrite !in_app_iff in He.
    destruct He as [He | [He | [He | He]]]; [ | | | exact He ]; exfalso.
    - exact (Hnone _ _ F0 He Hs).
    - exact (Hnone _ _ F1 He Hs).
    - exact (Hnone _ _ Fa He Hs). }
  pose proof (Fb _ (Hsigned _ Hin eq_refl)) as (Hpk & Hk & Hrec). cbn in Hpk, Hk, Hrec.
  split; [ rewrite Hpk, Hk, Hgsk; exact Hgpk | ].
  intros l k2 r2 Hl.
  pose proof (Fb _ (Hsigned _ Hl eq_refl)) as (Ho & Hlpk & _ & Hlrec).
  cbn in Ho, Hlpk, Hlrec.
  destruct (Hlessor Ho) as (Htr & Hladdr & Hgen).
  exists (scheme c). split.
  - rewrite Hlpk, Hrec, Htr. exact Hladdr.
  - intros Hempty. rewrite Hlrec, (Hgen (Hp Hempty)), Hpk. exact Hgaddr.
Qed.

Lemma lease_spends_what_the_transfer_funded_witness :
  GeneratePublicKey (sample 1000000000 500000000 0 [feature15]) "GeneratorKey"
  = "pk-GeneratorKey".
Proof.
  set (w := sample 1000000000 500000000 0 [feature15]).
  set (f := flagsOf waves 0 false false).
  refine (eq_sym (proj1 (lease_spends_what_the_transfer_funded w f 4 start
            (snd (run w f 4 start)) (fst (run w f 4 start))
            (trace (snd (run w f 4 start)))
            {| tVersion := 3; tSenderPK := "pk-GeneratorKey";
               tTimestamp := 1700000000000; tAmount := 899900000;
               tFee := 100000; tRecipient := "3P-pk-LessorKey" |}
            "GeneratorKey" (Ok "transfer-id")
            (surjective_pairing _) eq_refl _))).
  vm_compute. do 18 right. left. reflexivity.
Defined.

(** ** Help, version and the feature list *)

(** X14: with [-help], [run] prints the usage text and returns nil without
    looking at any other flag or touching the node, and so does [-version]
    (when [-help] is not set) with the version line: both win over every
    invalid flag. *)
Theorem help_and_version_return_at_once (w : World) (f : Flags) (fuel : nat) (s : State) :
  showHelp f = true \/ showVersion f = true ->
  run w f fuel s
  = (Return None,
     {| trace := trace s ++ [if showHelp f then Usage
                             else Stdout "Waves Automatic Lessor %s\n"];
        calls := calls s |}).
Proof.
  intros H. unfold run, throughTransfer, checkFlags, when, bind, emit, exit, ret.
  destruct (showHelp f); [ reflexivity | ].
  destruct H as [H | H]; [ discriminate | ].
  rewrite H. reflexivity.
Qed.

Lemma help_and_version_return_at_once_witness :
  run (unreachable (sample 0 0 0 []))
    {| nodeURL := ""; generatorSK := ""; lessorSK := ""; lessorPK := "0OIl";
       leasingAddress := ""; irreducibleBalance := -1; leasingThreshold := 0;
       transferOnly := false; recipientAddress := ""; dryRun := false;
       testRun := false; showHelp := false; showVersion := true |} 0 start
  = (Return None, {| trace := [Stdout "Waves Automatic Lessor %s\n"]; calls := 0 |}).
Proof.
  apply (help_and_version_return_at_once (unreachable (sample 0 0 0 []))
           {| nodeURL := ""; generatorSK := ""; lessorSK := ""; lessorPK := "0OIl";
              leasingAddress := ""; irreducibleBalance := -1; leasingThreshold := 0;
              transferOnly := false; recipientAddress := ""; dryRun := false;
              testRun := false; showHelp := false; showVersion := true |} 0 start).
  right. reflexivity.
Defined.

(** X15: the loop of [isProtobufActivated] answers for the set of features
    in the response: neither their order nor repetitions matter, and the
    answer for two lists put together is the disjunction of the answers. *)
Theorem protobufFeature_ignores_order (fs gs : list feature) :
  protobufFeature (fs ++ gs) = protobufFeature fs || protobufFeature gs /\
  (Permutation fs gs -> protobufFeature fs = protobufFeature gs) /\
  protobufFeature (fs ++ fs) = protobufFeature fs.
Proof.
  assert (Happ : forall a b, protobufFeature (a ++ b) = protobufFeature a || protobufFeature b).
  { intros a b. induction a as [ | x a IH]; cbn [app protobufFeature]; [ reflexivity | ].
    destruct ((ID x =? 15) && String.eqb (BlockchainStatus x) "ACTIVATED"
              && (String.eqb (NodeStatus x) "IMPLEMENTED"
                  || String.eqb (NodeStatus x) "VOTED")); [ reflexivity | exact IH ]. }
  split; [ apply Happ | ]. split.
  - intros Hperm.
    destruct (protobufFeature fs) eqn:Ef; destruct (protobufFeature gs) eqn:Eg;
      try reflexivity; exfalso.
    + apply protobufFeature_spec in Ef. destruct Ef as (x & Hx & H).
      assert (Hg : protobufFeature gs = true).
      { apply protobufFeature_spec. exists x. split; [ | exact H ].
        eapply Permutation_in; eauto. }
      congruence.
    + apply protobufFeature_spec in Eg. destruct Eg as (x & Hx & H).
      assert (Hf : protobufFeature fs = true).
      { apply protobufFeature_spec. exists x. split; [ | exact H ].
        eapply Permutation_in; [ apply Permutation_sym | ]; eauto. }
      congruence.
  - rewrite Happ. apply orb_diag.
Qed.

Lemma protobufFeature_ignores_order_witness :
  protobufFeature [feature15; {| ID := 14; Description := ""; BlockchainStatus := "ACTIVATED";
                                 NodeStatus := "IMPLEMENTED"; ActivationHeight := 1 |}]
  = protobufFeature [{| ID := 14; Description := ""; BlockchainStatus := "ACTIVATED";
                        NodeStatus := "IMPLEMENTED"; ActivationHeight := 1 |}; feature15].
Proof.
  apply (proj1 (proj2 (protobufFeature_ignores_order _ _))).
  apply perm_swap.
Defined.

(** ** What a dry run shows *)

Lemma alike_ret A (a : A) : alike (ret a) (ret a).
Proof. intros s1 s2 H. cbn. auto. Qed.

Lemma alike_exit A err : alike (@exit A err) (exit err).
Proof. intros s1 s2 H. cbn. auto. Qed.

Lemma alike_emit e : alike (emit e) (emit e).
Proof. intros s1 s2 H. cbn. auto. Qed.

Lemma alike_timestamp w : alike (timestamp w) (timestamp w).
Proof. intros s1 s2 H. unfold timestamp. cbn. rewrite H. auto. Qed.

Lemma alike_request A (oracle : nat -> A) event : alike (request oracle event) (request oracle event).
Proof. intros s1 s2 H. unfold request. cbn. rewrite H. auto. Qed.

Lemma alike_when_log b1 b2 line : alike (when b1 (log line)) (when b2 (log line)).
Proof. intros s1 s2 H. destruct b1, b2; cbn; auto. Qed.

Lemma alike_bind A B (m1 m2 : M A) (k1 k2 : A -> M B) :
  alike m1 m2 -> (forall a, alike (k1 a) (k2 a)) -> alike (bind m1 k1) (bind m2 k2).
Proof.
  intros Hm Hk s1 s2 H. unfold bind.
  destruct (Hm s1 s2 H) as [Hr Hc].
  destruct (m1 s1) as [r1 t1]; destruct (m2 s2) as [r2 t2]. cbn in Hr, Hc. subst r2.
  destruct r1 as [a | e | | ]; cbn; auto.
  apply Hk. exact Hc.
Qed.

Ltac likewise :=
  repeat first
    [ apply alike_ret | apply alike_exit | apply alike_emit | apply alike_timestamp
    | apply alike_request | apply alike_when_log
    | apply alike_bind; [ | intros ? ]
    | match goal with
      | |- alike (match ?x with _ => _ end) (match ?x with _ => _ end) => destruct x
      | |- alike (when ?c _) (when ?c _) => destruct c; unfold when
      end ].

(** Everything up to the construction of the transfer goes the same way
    with and without [-dry-run]. *)
Lemma prepareTransfer_alike w f b1 b2 :
  alike (prepareTransfer w (withDryRun b1 f)) (prepareTransfer w (withDryRun b2 f)).
Proof.
  unfold prepareTransfer, checkFlags, decodeKeys, connect, nodeClient, chainFacts,
    getScheme, isProtobufActivated, resolveAccounts, amountPhase,
    getAvailableWavesBalance, getExtraFee, failed, log.
  cbn [withDryRun nodeURL generatorSK lessorSK lessorPK leasingAddress irreducibleBalance
         leasingThreshold transferOnly recipientAddress dryRun testRun showHelp showVersion].
  likewise.
Qed.

Lemma run_split_transfer w f fuel s :
  run w f fuel s = (x <- prepareTransfer w f ;; finishRun w f fuel x) s.
Proof.
  unfold run, throughTransfer, prepareTransfer, finishRun, transferStep, bind, ret.
  destruct (checkFlags w f s) as [[[url p] | e | | ] s0]; try reflexivity.
  destruct (connect w url s0) as [[cl | e | | ] s1]; try reflexivity.
  destruct (chainFacts w cl s1) as [[c | e | | ] s2]; try reflexivity.
  destruct (resolveAccounts w f p (scheme c) s2) as [[a | e | | ] s3]; try reflexivity.
  destruct (amountPhase w f TransferPhase (generator a) s3) as [[[amount fee] | e | | ] s4];
    try reflexivity.
  unfold timestamp.
  match goal with
  | |- context [deliver w f fuel ?ph ?sch ?key ?tx ?s5] =>
      destruct (deliver w f fuel ph sch key tx s5) as [[[] | e | | ] s6]
  end; reflexivity.
Qed.

Lemma prepareTransfer_unsigned w f :
  frames (fun _ t => Forall (fun e => txOf e = None) t) 0 (prepareTransfer w f).
Proof.
  match goal with |- frames ?Q0 _ _ => set (Q := Q0) end.
  assert (Q_nil : Q 0%nat []) by constructor.
  assert (Q_app : forall n1 n2 t1 t2, Q n1 t1 -> Q n2 t2 -> Q (n1 + n2)%nat (t1 ++ t2)%list)
    by (intros n1 n2 t1 t2 H1 H2; apply Forall_app; auto).
  assert (Q_mono : forall n n' t, (n <= n')%nat -> Q n t -> Q n' t) by (intros; assumption).
  assert (Q_free : forall e, txOf e = None -> Q 0%nat [e])
    by (intros e He; constructor; [ exact He | constructor ]).
  assert (Q_log : forall line, Q 0%nat [Log line]) by (intros; apply Q_free; reflexivity).
  unfold prepareTransfer.
  apply (frames_seq Q Q_app Q_mono).
  { apply (frames_checkFlags Q Q_nil Q_app Q_mono Q_log); intros; apply Q_free; reflexivity. }
  intros [url p]. apply (frames_seq Q Q_app Q_mono).
  { apply (frames_connect Q Q_nil Q_app Q_mono Q_log); intros; apply Q_free; reflexivity. }
  intros cl. apply (frames_seq Q Q_app Q_mono).
  { apply (frames_chainFacts Q Q_nil Q_app Q_mono Q_log); intros; apply Q_free; reflexivity. }
  intros c. apply (frames_seq Q Q_app Q_mono).
  { apply (frames_resolveAccounts Q Q_nil Q_app Q_mono Q_log). }
  intros a. apply (frames_seq Q Q_app Q_mono).
  { apply (frames_amountPhase Q Q_nil Q_app Q_mono Q_log _ _ _ _ 0 0);
      intros; apply Q_free; reflexivity. }
  intros [amount fee]. apply (frames_seq Q Q_app Q_mono).
  { apply (frames_timestamp Q Q_nil). }
  intros t. apply (frames_ret Q Q_nil).
Qed.

(** From the signature of the transfer on: that signature is the first
    thing asked for, and no other transfer is ever signed. *)
Lemma finishRun_signs w f fuel p c a tx s0 :
  exists r s' rest,
    finishRun w f fuel (p, c, a, tx) s0 = (r, s') /\
    trace s' = (trace s0 ++
                Signed tx (sk (generator a))
                  (Sign w (scheme c) (sk (generator a)) tx) :: rest)%list /\
    Forall (fun e => match e with
                     | Signed (TransferTx tr') k' _ =>
                         TransferTx tr' = tx /\ k' = sk (generator a)
                     | _ => True
                     end)
      (Signed tx (sk (generator a)) (Sign w (scheme c) (sk (generator a)) tx) :: rest).
Proof.
  match goal with
  | |- exists r s' rest, _ /\ _ /\ Forall ?P0 _ => set (P := P0)
  end.
  set (Q := fun (_ : nat) t => Forall P t).
  assert (Q_nil : Q 0%nat []) by constructor.
  assert (Q_app : forall n1 n2 t1 t2, Q n1 t1 -> Q n2 t2 -> Q (n1 + n2)%nat (t1 ++ t2)%list)
    by (intros n1 n2 t1 t2 H1 H2; apply Forall_app; auto).
  assert (Q_mono : forall n n' t, (n <= n')%nat -> Q n t -> Q n' t) by (intros; assumption).
  assert (Q_free : forall e, isSignature e = false -> Q 0%nat [e]).
  { intros e He. constructor; [ | constructor ]. destruct e; try exact I; discriminate. }
  assert (Q_log : forall line, Q 0%nat [Log line]) by (intros; apply Q_free; reflexivity).
  assert (Q_rest : frames Q 0 (if transferOnly f then log "[INFO] OK" ;; exit None
                               else leaseStep w f fuel c p a)).
  { destruct (transferOnly f).
    - apply (frames_seq Q Q_app Q_mono);
        [ apply (frames_log Q Q_log) | intros _; apply (frames_exit Q Q_nil) ].
    - apply (frames_leaseStep Q Q_nil Q_app Q_mono Q_log w f fuel c p a 0 0).
      + intros; apply Q_free; reflexivity.
      + intros; apply Q_free; reflexivity.
      + intros l key _. apply (frames_deliver Q Q_nil Q_app Q_mono Q_log).
        * intros r. constructor; [ exact I | constructor ].
        * intros _ r. apply Q_free. reflexivity.
        * intros _. split; [ | split ]; intros; apply Q_free; reflexivity. }
  assert (Q_deliver : frames Q 0 (deliver w f fuel TransferPhase (scheme c)
                                    (sk (generator a)) tx)).
  { apply (frames_deliver Q Q_nil Q_app Q_mono Q_log).
    - intros r. constructor; [ | constructor ]. unfold P. destruct tx; auto.
    - intros _ r. apply Q_free. reflexivity.
    - intros _. split; [ | split ]; intros; apply Q_free; reflexivity. }
  destruct (deliver_signs w f fuel TransferPhase (scheme c) (sk (generator a)) tx s0)
    as (r1 & s1 & rest1 & Hd & Ht1 & _).
  destruct (Q_deliver s0 r1 s1 Hd) as (t1 & Ht1' & F1).
  rewrite Ht1 in Ht1'. apply app_inv_head in Ht1'. subst t1.
  unfold finishRun.
  set (after := if transferOnly f then log "[INFO] OK" ;; exit None
                else leaseStep w f fuel c p a) in *.
  unfold bind at 1. rewrite Hd.
  destruct r1 as [[] | e | | ];
    try (do 2 eexists; exists rest1; split; [ reflexivity | split; [ exact Ht1 | exact F1 ] ]).
  destruct (after s1) as [r2 s2] eqn:E2.
  destruct (Q_rest s1 r2 s2 E2) as (t2 & Ht2 & F2).
  exists r2, s2, (rest1 ++ t2)%list. split; [ reflexivity | ].
  split.
  - rewrite Ht2, Ht1, <- app_assoc. reflexivity.
  - change (Forall P ((Signed tx (sk (generator a))
                         (Sign w (scheme c) (sk (generator a)) tx) :: rest1) ++ t2)).
    apply Forall_app. auto.
Qed.

(** X16: against the same world, a dry run asks for the signature of
    exactly the transfer that the real run asks for, with the same key:
    what [-dry-run] shows for the transfer is what would be sent. *)
Theorem dry_run_shows_the_transfer (w : World) (f : Flags) (fuel fuel' : nat)
    (tr : Transfer) (k : SecretKey) :
  (exists r1, In (Signed (TransferTx tr) k r1)
                 (trace (snd (run w (withDryRun true f) fuel start)))) <->
  (exists r1, In (Signed (TransferTx tr) k r1)
                 (trace (snd (run w (withDryRun false f) fuel' start)))).
Proof.
  assert (Hchar : forall b n,
    (exists r1, In (Signed (TransferTx tr) k r1)
                   (trace (snd (run w (withDryRun b f) n start)))) <->
    (exists p c a,
       fst (prepareTransfer w (withDryRun b f) start) = Next (p, c, a, TransferTx tr) /\
       k = sk (generator a))).
  { intros b n. set (fb := withDryRun b f).
    rewrite run_split_transfer. unfold bind.
    destruct (prepareTransfer w fb start) as [r0 s0] eqn:E0.
    destruct (prepareTransfer_unsigned w fb start r0 s0 E0) as (t0 & Ht0 & F0).
    cbn [trace start app] in Ht0. rewrite Forall_forall in F0.
    destruct r0 as [[[[p c] a] tx] | e | | ]; cbn [fst snd];
      try (split;
           [ intros (r1 & Hin); rewrite Ht0 in Hin; apply F0 in Hin; discriminate
           | intros (p & c & a & Hx & _); discriminate ]).
    destruct (finishRun_signs w fb n p c a tx s0) as (r & s' & rest & Hf & Ht & HP).
    rewrite Hf. cbn [snd]. rewrite Ht, Ht0. rewrite Forall_forall in HP.
    split.
    - intros (r1 & Hin). apply in_app_iff in Hin. destruct Hin as [Hin | Hin].
      + apply F0 in Hin. discriminate.
      + apply HP in Hin. destruct Hin as [Htx Hk]. exists p, c, a. rewrite Htx. auto.
    - intros (p' & c' & a' & Hx & Hk). inversion Hx; subst.
      eexists. apply in_app_iff. right. left. reflexivity. }
  rewrite (Hchar true fuel), (Hchar false fuel').
  destruct (prepareTransfer_alike w f true false start start eq_refl) as [Hr _].
  rewrite Hr. reflexivity.
Qed.
